(** * Polytope bias estimation and facet reconstruction for ReLU layers

    A shallow embedding of the routines of [Code.ipynb]:
    [norm_row], [is_omnidir], [alpha_S], [pbe], [relu] and [relu_inv],
    and of [zcosz], [zcosz_inv], [fb_ana] and [randn_fb].

    Modelling conventions.
    - numpy arrays of float64 are lists of real numbers ([vec]) and lists
      of rows ([matrix]); arithmetic is exact real arithmetic, so IEEE
      rounding, [nan] and [inf] are outside the model, and a statement
      that divides by a norm assumes that norm is not zero. Identities
      that hold of the reals only are marked as such; [norm_row_f64] is
      [norm_row] on binary64 floats and shows where rounding breaks them.
    - matrices and facet lists are rectangular, as numpy arrays and
      [ConvexHull.simplices] are; a matrix has at least one row, which
      gives its number of columns; indices are natural numbers.
    - the numerical routines that the notebook imports
      ([np.linalg.matrix_rank], [scipy.optimize.linprog], cvxpy's
      [Problem.solve], [np.linalg.lstsq]) are an interface, [NumLib];
      what the notebook passes to them is modelled exactly.
    - a Python exception is the [Raise] outcome of [result]; text written
      by [print] is collected in a list of [output] lines.
    - the global random generator of numpy is a state that [randn_fb]
      takes and returns. *)

From Stdlib Require Import PrimFloat.
From Stdlib Require Import String.
From Stdlib Require Import Reals Lra Lia Bool Arith List Sorted Permutation.
Import ListNotations.

Open Scope R_scope.

(** ** Vectors and matrices *)

Definition vec := list R.
Definition matrix := list (list R).

(** [np.dot] of two one-dimensional arrays. *)
Fixpoint dot (u v : vec) : R :=
  match u, v with
  | a :: u', b :: v' => a * b + dot u' v'
  | _, _ => 0
  end.

(** [np.dot(W, x)] for a two-dimensional [W]. *)
Definition matvec (W : matrix) (x : vec) : vec :=
  map (fun row => dot row x) W.

(** Elementwise operations on arrays of equal shape. *)
Fixpoint zipWith {A B C : Type} (f : A -> B -> C) (u : list A) (v : list B)
  : list C :=
  match u, v with
  | a :: u', b :: v' => f a b :: zipWith f u' v'
  | _, _ => []
  end.

Definition vsub (u v : vec) : vec := zipWith Rminus u v.
Definition vadd (u v : vec) : vec := zipWith Rplus u v.
Definition vscale (a : R) (u : vec) : vec := map (Rmult a) u.

(** [W.shape[0]] and [W.shape[1]]. *)
Definition nrows (W : matrix) : nat := length W.
Definition ncols (W : matrix) : nat :=
  match W with
  | [] => 0%nat
  | row :: _ => length row
  end.

(** [np.transpose(W)] of an [m] x [n] matrix: row [j] collects entry [j]
    of every row of [W]. *)
Definition column (W : matrix) (j : nat) : vec :=
  map (fun row => nth j row 0) W.

Definition transpose (W : matrix) : matrix :=
  map (column W) (seq 0 (ncols W)).

(** Comparisons of floats, as booleans. *)
Definition Rltb (a b : R) : bool := if Rlt_dec a b then true else false.

(** ** Python outcomes *)

Inductive exn : Type :=
| ValueError
| IndexError
| UnboundLocalError
| ZeroDivisionError.

Inductive result (A : Type) : Type :=
| Ret (a : A)
| Raise (e : exn).

Arguments Ret {A} a.
Arguments Raise {A} e.

Definition bind {A B : Type} (r : result A) (k : A -> result B) : result B :=
  match r with
  | Ret a => k a
  | Raise e => Raise e
  end.

Notation "x <- r ;; k" := (bind r (fun x => k))
  (at level 61, r at next level, right associativity).

(** What [print] writes. *)
Inductive output : Type :=
| Line (s : String.string)
| FacetLine (i : nat) (f_ind : list nat).

(** ** norm_row *)

(** [np.linalg.norm] of one row. *)
Definition norm2 (row : vec) : R := sqrt (dot row row).

(** [norm = np.linalg.norm(W, axis=1)]; [W_norm = W / norm[:, None]]. *)
Definition norm_row (W : matrix) : matrix * vec :=
  let norm := map norm2 W in
  let W_norm := zipWith (fun row nr => map (fun a => a / nr) row) W norm in
  (W_norm, norm).

(** ** norm_row on float64 arrays *)

(** [np.linalg.norm] of one float64 row: the squares are added from left
    to right, as numpy's reduction does for a row of fewer than 8
    entries, and the square root is rounded once. *)
Definition norm2_f64 (row : list float) : float :=
  PrimFloat.sqrt
    (fold_left PrimFloat.add (map (fun a => a * a)%float row) 0%float).

(** [norm_row] with every operation rounded to binary64. *)
Definition norm_row_f64 (W : list (list float))
  : list (list float) * list float :=
  let norm := map norm2_f64 W in
  let W_norm := zipWith (fun row nr => map (fun a => a / nr)%float row) W norm in
  (W_norm, norm).

(** ** relu *)

(** [z * (z > 0)]: the comparison gives the float 1 or 0. *)
Definition gate (z : R) : R := z * (if Rltb 0 z then 1 else 0).

(** [z = np.dot(W, x) - b; return z * (z > 0)]. *)
Definition relu (x : vec) (W : matrix) (b : vec) : vec :=
  let z := vsub (matvec W x) b in
  map gate z.

(** ** The numerical library *)

(** [scipy.optimize.linprog] returns a dictionary; the notebook reads its
    ['message'] and ['x']. *)
Record linprog_result : Type := {
  message : String.string;
  lp_x : vec
}.

(** [cp.Problem(cp.Minimize(f @ c), [cp.SOC(t, A @ c)] + [c >= lo])] for a
    variable [c = cp.Variable(size)]. *)
Record cp_problem : Type := {
  cp_size : nat;
  cp_minimize : vec;
  cp_soc_bound : R;
  cp_soc_matrix : matrix;
  cp_lower : vec
}.

Class NumLib : Type := {
  (** [np.linalg.matrix_rank(W)] *)
  matrix_rank : matrix -> nat;
  (** [linprog(c, A_eq=A, b_eq=b)] *)
  linprog : vec -> matrix -> vec -> linprog_result;
  (** [prob.solve()] followed by [prob.value] *)
  cp_solve : cp_problem -> R;
  (** [np.linalg.lstsq(A, y, rcond=None)[0]] *)
  lstsq : matrix -> vec -> vec
}.

(** What a conic problem means: the points it allows and the objective. *)
Definition cp_feasible (P : cp_problem) (c : vec) : Prop :=
  length c = cp_size P /\
  norm2 (matvec (cp_soc_matrix P) c) <= cp_soc_bound P /\
  Forall2 Rle (cp_lower P) c.

Definition cp_objective (P : cp_problem) (c : vec) : R :=
  dot (cp_minimize P) c.

Definition cp_optimal_value (P : cp_problem) (v : R) : Prop :=
  (exists c, cp_feasible P c /\ cp_objective P c = v) /\
  (forall c, cp_feasible P c -> v <= cp_objective P c).

(** What a least-squares answer means. *)
Definition residual (A : matrix) (y x : vec) : R :=
  let r := vsub (matvec A x) y in dot r r.

Definition least_squares (A : matrix) (y x : vec) : Prop :=
  forall x', residual A y x <= residual A y x'.

(** ** Indexing *)

(** [vert in facet] *)
Definition mem_nat (k : nat) (l : list nat) : bool := existsb (Nat.eqb k) l.

(** [A[idx]] for an index array: [IndexError] when an index is out of
    bounds. *)
Fixpoint take_rows {A : Type} (rows : list A) (idx : list nat)
  : result (list A) :=
  match idx with
  | [] => Ret []
  | i :: idx' =>
      match nth_error rows i with
      | None => Raise IndexError
      | Some r => rest <- take_rows rows idx' ;; Ret (r :: rest)
      end
  end.

(** [A[i]] for one index. *)
Definition row_at {A : Type} (rows : list A) (i : nat) : result A :=
  match nth_error rows i with
  | None => Raise IndexError
  | Some r => Ret r
  end.

(** [np.unique]: the sorted distinct values. *)
Fixpoint insert_unique (k : nat) (l : list nat) : list nat :=
  match l with
  | [] => [k]
  | h :: t =>
      if (k <? h)%nat then k :: l
      else if (k =? h)%nat then l
      else h :: insert_unique k t
  end.

Definition np_unique (l : list nat) : list nat :=
  fold_right insert_unique [] l.

(** [np.min] of a one-dimensional array and Python's [min] of a list:
    [ValueError] on an empty argument. *)
Definition np_min (l : vec) : result R :=
  match l with
  | [] => Raise ValueError
  | a :: l' => Ret (fold_left Rmin l' a)
  end.

(** [np.matmul(v, M)] of a vector and a matrix. *)
Definition vecmat (v : vec) (M : matrix) : vec :=
  map (fun j => dot v (column M j)) (seq 0 (ncols M)).

Section Routines.

Context {lib : NumLib}.

(** ** is_omnidir *)

Definition not_a_frame_msg : String.string :=
  "The system is not a frame"%string.
Definition infeasible_msg : String.string :=
  "The algorithm terminated successfully and determined that the problem is infeasible."%string.
Definition optimal_msg : String.string :=
  "Optimization terminated successfully."%string.
Definition boundary_msg : String.string :=
  "0 lies at or very very close to the boundary of the polytope."%string.

(** The values [is_omnidir] can return: [None], [True] or [False]. *)
Inductive pyvalue : Type :=
| PyNone
| PyBool (b : bool).

(** [value == False] *)
Definition is_False (v : pyvalue) : bool :=
  match v with
  | PyBool false => true
  | _ => false
  end.

(** The equality constraints handed to [linprog]: [WW] stacks the
    transpose of [W] on a row of ones, [zeros] is [n] zeros followed by 1. *)
Definition lp_matrix (W : matrix) : matrix :=
  transpose W ++ [repeat 1 (nrows W)].

Definition lp_rhs (W : matrix) : vec :=
  repeat 0 (ncols W) ++ [1].

Definition is_omnidir (W : matrix) : pyvalue * list output :=
  let m := nrows W in
  let n := ncols W in
  if negb (matrix_rank W =? n)%nat then
    (* [return print(...)]: the line is written and [None] is returned *)
    (PyNone, [Line not_a_frame_msg])
  else
    let WW := lp_matrix W in
    let ones := repeat 1 m in
    let zeros := lp_rhs W in
    let res := linprog ones WW zeros in
    if String.eqb (message res) infeasible_msg then
      (PyBool false, [])
    else if String.eqb (message res) optimal_msg then
      if existsb (fun xi => Rltb xi 1e-10) (lp_x res) then
        (PyBool true, [Line boundary_msg])
      else
        (PyBool true, [])
    else
      (* no branch returns: [None] *)
      (PyNone, []).

(** The answer of [linprog] that [is_omnidir] reads. *)
Definition omnidir_lp (W : matrix) : linprog_result :=
  linprog (repeat 1 (nrows W)) (lp_matrix W) (lp_rhs W).

(** ** alpha_S *)

(** The conic problem of row [Fi] of [F]. *)
Definition alpha_S_problem (F : matrix) (Fi : vec) : cp_problem :=
  let m := nrows F in
  let FT := transpose F in
  {| cp_size := m;
     cp_minimize := vecmat Fi FT;
     cp_soc_bound := 1;
     cp_soc_matrix := FT;
     cp_lower := repeat 0 m |}.

Definition alpha_S (F : matrix) : result R :=
  let sol := map (fun Fi => cp_solve (alpha_S_problem F Fi)) F in
  np_min sol.

(** ** pbe *)

Definition not_omnidir_msg : String.string :=
  "The frame is not omnidirectional"%string.
Definition unsupported_msg : String.string :=
  "Only sphere and ball are supported as data domains"%string.

(** [np.unique(np.array(facets)[[vert in facet for facet in facets]])] *)
Definition neighbours (facets : list (list nat)) (vert : nat) : list nat :=
  np_unique (concat (filter (mem_nat vert) facets)).

(** The body of the loop up to the choice of the domain: the value of
    [min_corr] for [vert]. *)
Definition vertex_min_corr (W_norm : matrix) (facets : list (list nat))
  (vert : nat) : result R :=
  match facets with
  | [] =>
      (* an empty [facets] makes [neighbours] an empty array of floats,
         which is refused as an index *)
      Raise IndexError
  | _ =>
      let nb := neighbours facets vert in
      Wv <- row_at W_norm vert ;;
      Wnb <- take_rows W_norm nb ;;
      let corr_vec := vecmat Wv (transpose Wnb) in
      min_corr <- np_min corr_vec ;;
      if Rltb min_corr 0 then alpha_S Wnb else Ret min_corr
  end.

Fixpoint pbe_loop (W_norm : matrix) (facets : list (list nat))
  (K : String.string) (verts : list nat) (alpha_norm : vec)
  : result (vec + String.string) :=
  match verts with
  | [] => Ret (inl alpha_norm)
  | vert :: rest =>
      min_corr <- vertex_min_corr W_norm facets vert ;;
      if String.eqb K "sphere" then
        pbe_loop W_norm facets K rest (alpha_norm ++ [min_corr])
      else if String.eqb K "ball" then
        pbe_loop W_norm facets K rest (alpha_norm ++ [Rmin min_corr 0])
      else
        Ret (inr unsupported_msg)
  end.

(** The value appended to [alpha_norm] for a supported domain. *)
Definition domain_clamp (K : String.string) (min_corr : R) : R :=
  if String.eqb K "ball" then Rmin min_corr 0 else min_corr.

(** [np.multiply(alpha_norm, np.reciprocal(norm.T)) * radius ** (-1)]
    for a radius that is not zero. *)
Definition scale_bias (alpha_norm norm : vec) (radius : R) : vec :=
  map (fun a => a * / radius) (zipWith Rmult alpha_norm (map Rinv norm)).

(** What [pbe] returns: an array or a string. *)
Inductive pbe_value : Type :=
| Bias (alpha : vec)
| Message (s : String.string).

Definition pbe (W : matrix) (facets : list (list nat)) (K : String.string)
  (radius : R) : result pbe_value * list output :=
  let (omni, out) := is_omnidir W in
  if is_False omni then
    (Ret (Message not_omnidir_msg), out)
  else
    let (W_norm, norm) := norm_row W in
    let m := nrows W in
    (r <- pbe_loop W_norm facets K (seq 0 m) [] ;;
     match r with
     | inr s => Ret (Message s)
     | inl alpha_norm =>
         if Req_dec_T radius 0 then
           (* [radius ** (-1)] of a Python number *)
           Raise ZeroDivisionError
         else
           Ret (Bias (scale_bias alpha_norm norm radius))
     end, out).

(** ** relu_inv *)

(** [np.where(z > 0)[0]], counting from [i]. *)
Fixpoint where_pos (z : vec) (i : nat) : list nat :=
  match z with
  | [] => []
  | a :: z' =>
      if Rltb 0 a then i :: where_pos z' (S i) else where_pos z' (S i)
  end.

(** [all(k in I for k in facet)] *)
Definition all_in (facet I : list nat) : bool :=
  forallb (fun k => mem_nat k I) facet.

(** The [for] loop with its [break]: the value of [i] after the loop, for
    the facets from position [i] on. [None] when the body never ran. *)
Fixpoint facet_scan (I : list nat) (facets : list (list nat)) (i : nat)
  : option nat :=
  match facets with
  | [] => None
  | f :: rest =>
      if all_in f I then Some i
      else
        match rest with
        | [] => Some i
        | _ => facet_scan I rest (S i)
        end
  end.

Definition relu_inv (z : vec) (W : matrix) (b : vec)
  (facets : list (list nat)) (mode : String.string)
  : result vec * list output :=
  let I := where_pos z 0 in
  let chosen : result (list nat * list output) :=
    if String.eqb mode "facet" then
      match facet_scan I facets 0 with
      | None => Raise UnboundLocalError
      | Some i =>
          match nth_error facets i with
          | None => Raise IndexError
          | Some f_ind => Ret (f_ind, [FacetLine i f_ind])
          end
      end
    else Ret (I, []) in
  match chosen with
  | Raise e => (Raise e, [])
  | Ret (f_ind, out) =>
      (W_f <- take_rows W f_ind ;;
       b_f <- take_rows b f_ind ;;
       z_f <- take_rows z f_ind ;;
       Ret (lstsq W_f (vadd z_f b_f)), out)
  end.

End Routines.

(** ** Vocabulary of the statements *)

(** The domains that [pbe] supports. *)
Definition supported (K : String.string) : Prop :=
  K = "sphere"%string \/ K = "ball"%string.

(** Every row of [M] has [n] entries. *)
Definition rectangular (n : nat) (M : matrix) : Prop :=
  Forall (fun row => length row = n) M.

(** [a] is the least element of [l]. *)
Definition is_minimum (a : R) (l : vec) : Prop :=
  In a l /\ Forall (Rle a) l.

(** Index [k] is in the support of [z]. *)
Definition in_support (z : vec) (k : nat) : Prop :=
  (k < length z)%nat /\ 0 < nth k z 0.

(** Facet [i] is the first one whose vertices are all in [I]. *)
Definition first_match (I : list nat) (facets : list (list nat)) (i : nat)
  : Prop :=
  (exists f, nth_error facets i = Some f /\ all_in f I = true) /\
  (forall j f, (j < i)%nat -> nth_error facets j = Some f ->
               all_in f I = false).

(** The rows of [W] at a facet and the right-hand side [z_f + b_f]. *)
Definition facet_rows (W : matrix) (f_ind : list nat) : matrix :=
  map (fun k => nth k W []) f_ind.

Definition facet_rhs (z b : vec) (f_ind : list nat) : vec :=
  map (fun k => nth k z 0 + nth k b 0) f_ind.

(** What it means for a facet list to describe the hull of the rows of
    [W]: [u] and [h] give a hyperplane that holds the vertices of [f] and
    has every other row strictly on its inner side. *)
Definition supporting (W : matrix) (f : list nat) (u : vec) (h : R) : Prop :=
  forall j, (j < nrows W)%nat ->
    (In j f -> dot (nth j W []) u = h) /\
    (~ In j f -> dot (nth j W []) u < h).

Definition hull_facet (W : matrix) (f : list nat) : Prop :=
  exists u h, supporting W f u h.

(** The origin is a convex combination of the rows of [W] with positive
    weights [c]. *)
Definition omnidirectional_by (W : matrix) (c : vec) : Prop :=
  length c = nrows W /\
  Forall (fun ci => 0 < ci) c /\
  matvec (lp_matrix W) c = lp_rhs W.

(** The conic problem that [alpha_S] is about, for row [Fi] of [F],
    written on the weights [c]: one weight per row of [F], the Euclidean
    norm of [F^T c] at most 1 and every weight at least 0; the objective
    is [(Fi F^T) c]. [val] is its optimal value when a feasible [c]
    attains it and no feasible [c] goes below it. *)
Definition conic_feasible (F : matrix) (c : vec) : Prop :=
  length c = nrows F /\
  norm2 (matvec (transpose F) c) <= 1 /\
  Forall (fun ci => 0 <= ci) c.

Definition conic_objective (F : matrix) (Fi c : vec) : R :=
  dot (vecmat Fi (transpose F)) c.

Definition conic_optimum (F : matrix) (Fi : vec) (val : R) : Prop :=
  (exists c, conic_feasible F c /\ conic_objective F Fi c = val) /\
  (forall c, conic_feasible F c -> val <= conic_objective F Fi c).

(** ** Example frames *)

(** A library given by its answers: one rank, one linear-programming
    answer and one conic value, and Cramer's rule for systems of two
    equations in two unknowns. *)
Definition solve2 (A : matrix) (y : vec) : vec :=
  match A, y with
  | [[a; b]; [c; d]], [e; f] =>
      let det := a * d - b * c in
      [(e * d - b * f) / det; (a * f - e * c) / det]
  | _, _ => repeat 0 (ncols A)
  end.

Definition answers (rank : nat) (lp : linprog_result) (conic : R) : NumLib :=
  {| matrix_rank := fun _ => rank;
     linprog := fun _ _ _ => lp;
     cp_solve := fun _ => conic;
     lstsq := solve2 |}.

(** The four unit vectors along the axes of the plane, with the edges of
    their square as facets. *)
Definition cross : matrix := [[1; 0]; [0; 1]; [-1; 0]; [0; -1]].

Definition cross_facets : list (list nat) :=
  [[3; 0]; [0; 1]; [2; 3]; [1; 2]]%nat.

Definition cross_lp : linprog_result :=
  {| message := optimal_msg; lp_x := [1 / 4; 1 / 4; 1 / 4; 1 / 4] |}.

Definition cross_lib : NumLib := answers 2 cross_lp 0.

(** The text that [linprog] of scipy 1.10.0, the version the repository
    asks for, reports on optimal termination: its default solver appends
    its own status to the sentence. *)
Definition highs_optimal_msg : String.string :=
  "Optimization terminated successfully. (HiGHS Status 7: Optimal)"%string.

Definition cross_highs_lib : NumLib :=
  answers 2 {| message := highs_optimal_msg;
               lp_x := [1 / 4; 1 / 4; 1 / 4; 1 / 4] |} 0.

(** Two equal rows: a matrix of rank 1 with two columns. *)
Definition twin : matrix := [[1; 0]; [1; 0]].

Definition twin_facets : list (list nat) := [[0; 1]]%nat.

Definition twin_lib : NumLib :=
  answers 1 {| message := infeasible_msg; lp_x := [] |} 0.

(** The tetrahedron frame of the notebook with the facets that the
    notebook prints for it, and its rows scaled to unit length. *)
Definition tetr : matrix := [[1; 1; 1]; [-1; -1; 1]; [-1; 1; -1]; [1; -1; -1]].

Definition tetr_facets : list (list nat) :=
  [[2; 0; 1]; [3; 0; 1]; [3; 2; 1]; [3; 2; 0]]%nat.

Definition tetr_unit : matrix := map (map (fun a => a / sqrt 3)) tetr.

Definition tetr_lib : NumLib :=
  answers 3 {| message := optimal_msg;
               lp_x := [1 / 4; 1 / 4; 1 / 4; 1 / 4] |} (-1).

(** ** Further vocabulary *)

(** Row [i] of [W] multiplied by [d[i]]. *)
Definition scale_rows (d : vec) (W : matrix) : matrix := zipWith vscale d W.

(** The conic solver answers the problems posed for the neighbourhood of
    [v] with their optimal values. *)
Definition solver_exact_at {lib : NumLib} (W_norm : matrix)
  (facets : list (list nat)) (v : nat) : Prop :=
  forall Wnb Fi,
    take_rows W_norm (neighbours facets v) = Ret Wnb -> In Fi Wnb ->
    cp_optimal_value (alpha_S_problem Wnb Fi)
                     (cp_solve (alpha_S_problem Wnb Fi)).

(** ** zcosz and zcosz_inv *)

(** [z = np.dot(W, x) - b; return z * np.cos(z)]. *)
Definition zcosz (x : vec) (W : matrix) (b : vec) : vec :=
  let z := vsub (matvec W x) b in
  map (fun zi => zi * cos zi) z.

(** [np.where(z != 0)[0]], counting from [i]. *)
Fixpoint where_nonzero (z : vec) (i : nat) : list nat :=
  match z with
  | [] => []
  | a :: z' =>
      if Req_dec_T a 0 then where_nonzero z' (S i)
      else i :: where_nonzero z' (S i)
  end.

Definition zcosz_inv {lib : NumLib} (z : vec) (W : matrix) (b : vec)
  (facets : list (list nat)) (mode : String.string)
  : result vec * list output :=
  let I := where_nonzero z 0 in
  let chosen : result (list nat * list output) :=
    if String.eqb mode "facet" then
      match facet_scan I facets 0 with
      | None => Raise UnboundLocalError
      | Some i =>
          match nth_error facets i with
          | None => Raise IndexError
          | Some f_ind => Ret (f_ind, [FacetLine i f_ind])
          end
      end
    else Ret (I, []) in
  match chosen with
  | Raise e => (Raise e, [])
  | Ret (f_ind, out) =>
      (W_f <- take_rows W f_ind ;;
       b_f <- take_rows b f_ind ;;
       z_f <- take_rows z f_ind ;;
       Ret (lstsq W_f (vadd (map (fun zi => zi * cos zi) z_f) b_f)), out)
  end.

(** Index [k] is in the support that [zcosz_inv] uses. *)
Definition in_nonzero_support (z : vec) (k : nat) : Prop :=
  (k < length z)%nat /\ nth k z 0 <> 0.

(** The right-hand side that [zcosz_inv] hands to [lstsq]. *)
Definition zcosz_rhs (z b : vec) (f_ind : list nat) : vec :=
  map (fun k => nth k z 0 * cos (nth k z 0) + nth k b 0) f_ind.

(** ** fb_ana and randn_fb *)

(** The exceptions of the filterbank routines: those above and a failed
    [assert]. *)
Inductive pyexn : Type :=
| Builtin (e : exn)
| AssertionError (msg : String.string).

Inductive outcome (A : Type) : Type :=
| Done (a : A)
| Failed (e : pyexn).

Arguments Done {A} a.
Arguments Failed {A} e.

(** [scipy.linalg.circulant(c)]: the entry in row [i] and column [j] is
    [c[(i - j) mod N]]. *)
Definition circulant (c : vec) : matrix :=
  let N := length c in
  map (fun i => map (fun j => nth ((i + N - j) mod N) c 0) (seq 0 N))
      (seq 0 N).

(** [l[::a]]: the elements at positions 0, [a], [2 a], ...; [skip] counts
    the elements to pass over before the next one is taken. *)
Fixpoint stride_from {A : Type} (a skip : nat) (l : list A) : list A :=
  match l with
  | [] => []
  | x :: t =>
      match skip with
      | O => x :: stride_from a (a - 1) t
      | S s => stride_from a s t
      end
  end.

Definition stride {A : Type} (a : nat) (l : list A) : list A :=
  stride_from a 0 l.

Definition divisor_msg : String.string := "a must be a divisor of N"%string.

Definition fb_ana (w : matrix) (a : nat) : outcome matrix :=
  let N := ncols w in
  if (a =? 0)%nat then
    (* [N % a] *)
    Failed (Builtin ZeroDivisionError)
  else if negb (N mod a =? 0)%nat then
    Failed (AssertionError divisor_msg)
  else
    let W := map (fun wj => stride a (transpose (circulant wj))) w in
    (* [np.array(W).reshape(J * N // a, N)] puts the blocks one after
       the other *)
    Done (concat W).

(** [np.random.randn] with the state of the global generator made
    explicit. *)
Class RandLib : Type := {
  rng : Type;
  randn : rng -> nat -> nat -> matrix * rng
}.

(** [np.pad(w, ((0, 0), (0, k)), constant_values=0)] *)
Definition pad_right (w : matrix) (k : nat) : matrix :=
  map (fun row => row ++ repeat 0 k) w.

Definition randn_fb {rl : RandLib} (s : rng) (N J : nat) (T : option nat)
  (scale norm analysis : bool) (a : nat) : outcome matrix * rng :=
  if (a =? 0)%nat then (Failed (Builtin ZeroDivisionError), s)
  else if negb (N mod a =? 0)%nat then (Failed (AssertionError divisor_msg), s)
  else
    let T := match T with None => N | Some t => t end in
    (* [if scale: w = np.random.randn(J, T) / np.sqrt(T * J)];
       without it [w] stays unbound *)
    let scaled : option matrix * rng :=
      if scale then
        let (w, s1) := randn s J T in
        (Some (map (map (fun e => e / sqrt (INR (T * J)))) w), s1)
      else (None, s) in
    let (w0, s1) := scaled in
    let drawn : outcome matrix * rng :=
      if norm then
        match w0 with
        | None => (Failed (Builtin UnboundLocalError), s1)
        | Some w => (Done (fst (norm_row w)), s1)
        end
      else
        let (w, s2) := randn s1 J T in (Done w, s2) in
    match drawn with
    | (Failed e, s2) => (Failed e, s2)
    | (Done w, s2) =>
        if (N <? T)%nat then
          (* [np.pad] refuses a negative width *)
          (Failed (Builtin ValueError), s2)
        else
          let w_pad := pad_right w (N - T) in
          if analysis then (fb_ana w_pad a, s2) else (Done w_pad, s2)
    end.

(** A list rotated to the right by [s] places. *)
Definition rotr {A : Type} (s : nat) (l : list A) : list A :=
  skipn (length l - s) l ++ firstn (length l - s) l.

(** The two unit vectors of the plane. *)
Definition eye2 : matrix := [[1; 0]; [0; 1]].

(** One filter of length 4 and its analysis matrix for the step 2. *)
Definition ramp : matrix := [[1; 2; 3; 4]].

Definition ramp_ana : matrix := [[1; 2; 3; 4]; [3; 4; 1; 2]].

(** A generator that counts its draws and always hands out ones. *)
Definition ones_rand : RandLib :=
  {| rng := nat;
     randn := fun s J T => (repeat (repeat 1 T) J, S s) |}.

(** * Properties *)

(** ** Evaluating comparisons *)

Lemma Rltb_true (a b : R) : a < b -> Rltb a b = true.
Proof. intros H. unfold Rltb. destruct (Rlt_dec a b); [reflexivity | contradiction]. Qed.

Lemma Rltb_false (a b : R) : ~ a < b -> Rltb a b = false.
Proof. intros H. unfold Rltb. destruct (Rlt_dec a b); [contradiction | reflexivity]. Qed.

Lemma Rltb_spec (a b : R) : Rltb a b = true <-> a < b.
Proof.
  unfold Rltb. destruct (Rlt_dec a b); split; intros; auto; discriminate.
Qed.

(** ** Shapes *)

Lemma zipWith_length {A B C : Type} (f : A -> B -> C) (u : list A) (v : list B) :
  length u = length v -> length (zipWith f u v) = length u.
Proof.
  revert v. induction u as [|a u IH]; intros [|b v] Hlen; simpl in *;
    try discriminate; auto.
Qed.

Lemma zipWith_nth {A B C : Type} (f : A -> B -> C) (da : A) (db : B) (dc : C)
  (u : list A) (v : list B) (i : nat) :
  (i < length u)%nat -> (i < length v)%nat ->
  nth i (zipWith f u v) dc = f (nth i u da) (nth i v db).
Proof.
  revert v i. induction u as [|a u IH]; intros [|b v] [|i] Hu Hv; simpl in *;
    try lia; auto.
  apply IH; lia.
Qed.

Lemma norm_row_shape (W : matrix) :
  length (fst (norm_row W)) = nrows W /\ length (snd (norm_row W)) = nrows W.
Proof.
  unfold norm_row, nrows. simpl. split.
  - rewrite zipWith_length; [reflexivity | now rewrite length_map].
  - apply length_map.
Qed.

Lemma norm_row_norms (W : matrix) (i : nat) :
  (i < nrows W)%nat -> nth i (snd (norm_row W)) 0 = norm2 (nth i W []).
Proof.
  intros Hi. unfold norm_row. simpl.
  rewrite (nth_indep _ 0 (norm2 [])) by (now rewrite length_map).
  apply map_nth.
Qed.

Lemma norm_row_rows (W : matrix) (i : nat) :
  (i < nrows W)%nat ->
  nth i (fst (norm_row W)) [] =
  map (fun a => a / norm2 (nth i W [])) (nth i W []).
Proof.
  intros Hi. unfold norm_row. simpl.
  rewrite (zipWith_nth _ [] 0 []); [| exact Hi | now rewrite length_map].
  rewrite (nth_indep _ 0 (norm2 [])) by (now rewrite length_map).
  now rewrite map_nth.
Qed.

Lemma norm2_nonneg (row : vec) : 0 <= norm2 row.
Proof. apply sqrt_pos. Qed.

(** ** RowNormalizer *)

(** C10, over the reals. When every row of [W] has a nonzero Euclidean
    norm and the division and the product are exact, scaling row [i] of
    the normalized matrix by the [i]-th returned norm gives row [i] of
    [W] back, for every row index [i]. *)
Theorem norm_row_lossless (W : matrix) :
  Forall (fun row => norm2 row <> 0) W ->
  forall i, (i < nrows W)%nat ->
    vscale (nth i (snd (norm_row W)) 0) (nth i (fst (norm_row W)) [])
    = nth i W [].
Proof.
  intros Hnz i Hi.
  rewrite norm_row_norms, norm_row_rows by exact Hi.
  assert (Hn : norm2 (nth i W []) <> 0).
  { rewrite Forall_forall in Hnz. apply Hnz. apply nth_In. exact Hi. }
  unfold vscale. rewrite map_map.
  rewrite <- (map_id (nth i W [])) at 2.
  apply map_ext. intros a. field. exact Hn.
Qed.

Lemma norm2_nonzero (row : vec) : 0 < dot row row -> norm2 row <> 0.
Proof.
  intros H. unfold norm2. apply Rgt_not_eq. apply sqrt_lt_R0. exact H.
Qed.

Lemma norm_row_lossless_witness :
  vscale (nth 0 (snd (norm_row [[3; 4]; [0; 2]])) 0)
         (nth 0 (fst (norm_row [[3; 4]; [0; 2]])) [])
  = [3; 4].
Proof.
  apply (norm_row_lossless [[3; 4]; [0; 2]]).
  - repeat (apply Forall_cons; [apply norm2_nonzero; simpl; lra |]).
    apply Forall_nil.
  - unfold nrows. simpl. lia.
Defined.

(** *** Rounding *)

Lemma norm_row_f64_two_five :
  norm_row_f64 [[2; 5]]%float
  = ([[0x1.7c4dd663ebb88p-2; 0x1.db614bfce6a6bp-1]],
     [0x1.58a68a4a8d9f3p+2])%float.
Proof. vm_compute. reflexivity. Qed.

(** C10 as stated, on float64 arrays. For [W = [[2, 5]]] the returned
    norm is not zero, and the norm times the normalized row is
    [[1.9999999999999998, 5]]: the first entry of [W] does not come
    back. *)
Lemma norm_row_f64_not_lossless :
  PrimFloat.eqb (nth 0 (snd (norm_row_f64 [[2; 5]]%float)) 0%float) 0%float
  = false /\
  map (PrimFloat.mul (nth 0 (snd (norm_row_f64 [[2; 5]]%float)) 0%float))
      (nth 0 (fst (norm_row_f64 [[2; 5]]%float)) [])
  = [0x1.fffffffffffffp+0; 5]%float /\
  ~ (forall i, (i < 1)%nat ->
       map (PrimFloat.mul (nth i (snd (norm_row_f64 [[2; 5]]%float)) 0%float))
           (nth i (fst (norm_row_f64 [[2; 5]]%float)) [])
       = nth i [[2; 5]]%float []).
Proof.
  rewrite norm_row_f64_two_five. cbn [fst snd nth map].
  split; [vm_compute; reflexivity |].
  split; [vm_compute; reflexivity |].
  intros H. specialize (H 0%nat Nat.lt_0_1). cbn [nth map] in H.
  apply (f_equal (fun l => match l with
                           | a :: _ => PrimFloat.eqb a 2%float
                           | [] => true
                           end)) in H.
  vm_compute in H. discriminate H.
Qed.

(** Normalizing is not invariant under scaling on float64 arrays: the
    rows [[1, 1]] and [[3, 3]] are normalized to vectors that differ in
    the last digit, and so are [[1, 1]] and [[1, 1]] divided by the
    square root of 2, which is no longer of norm 1 once normalized. *)
Lemma norm_row_f64_scaling :
  fst (norm_row_f64 [[1; 1]]%float)
  = [[0x1.6a09e667f3bccp-1; 0x1.6a09e667f3bccp-1]]%float /\
  fst (norm_row_f64 [[3; 3]]%float)
  = [[0x1.6a09e667f3bcdp-1; 0x1.6a09e667f3bcdp-1]]%float /\
  fst (norm_row_f64 [[1 / PrimFloat.sqrt 2; 1 / PrimFloat.sqrt 2]]%float)
  = [[0x1.6a09e667f3bcdp-1; 0x1.6a09e667f3bcdp-1]]%float /\
  map norm2_f64 (fst (norm_row_f64 [[1; 2]]%float))
  = [0x1.fffffffffffffp-1]%float.
Proof. repeat split; vm_compute; reflexivity. Qed.

(** ** ForwardMap *)

Lemma gate_max (z : R) : gate z = Rmax z 0.
Proof.
  unfold gate, Rltb, Rmax.
  destruct (Rlt_dec 0 z); destruct (Rle_dec z 0); lra.
Qed.

Lemma matvec_nth (W : matrix) (x : vec) (i : nat) :
  (i < nrows W)%nat -> nth i (matvec W x) 0 = dot (nth i W []) x.
Proof.
  intros Hi. unfold matvec.
  rewrite (nth_indep _ 0 (dot [] x)) by (now rewrite length_map).
  apply (map_nth (fun row => dot row x)).
Qed.

Lemma relu_length (x : vec) (W : matrix) (b : vec) :
  length b = nrows W -> length (relu x W b) = nrows W.
Proof.
  intros Hb. unfold relu, vsub.
  assert (HW : length (matvec W x) = nrows W).
  { unfold matvec, nrows. apply length_map. }
  rewrite length_map, zipWith_length; congruence.
Qed.

Lemma relu_nth (x : vec) (W : matrix) (b : vec) (i : nat) :
  length b = nrows W -> (i < nrows W)%nat ->
  nth i (relu x W b) 0 = Rmax (dot (nth i W []) x - nth i b 0) 0.
Proof.
  intros Hb Hi. pose proof (relu_length x W b Hb) as Hlen. unfold relu, vsub in *.
  assert (HW : length (matvec W x) = nrows W).
  { unfold matvec, nrows. apply length_map. }
  rewrite length_map in Hlen.
  rewrite (nth_indep _ 0 (gate 0)) by (rewrite length_map; lia).
  rewrite (map_nth gate).
  rewrite (zipWith_nth _ 0 0 0) by lia.
  rewrite matvec_nth by exact Hi. apply gate_max.
Qed.

(** C6. For [x], [W], [b] of matching shapes, [relu x W b] has one entry
    per row of [W], and entry [i] is the maximum of [(W x)[i] - b[i]] and
    0. The embedding is a function from its three arguments to a vector:
    it reads nothing else and writes nothing. *)
Theorem relu_is_max (x : vec) (W : matrix) (b : vec) :
  Forall (fun row => length row = length x) W ->
  length b = nrows W ->
  length (relu x W b) = nrows W /\
  forall i, (i < nrows W)%nat ->
    nth i (relu x W b) 0 = Rmax (dot (nth i W []) x - nth i b 0) 0.
Proof.
  intros _ Hb. split.
  - now apply relu_length.
  - intros i Hi. now apply relu_nth.
Qed.

Lemma relu_is_max_witness :
  length (relu [2; 1] [[1; 0]; [0; -1]] [1; 0]) = 2%nat /\
  forall i, (i < 2)%nat ->
    nth i (relu [2; 1] [[1; 0]; [0; -1]] [1; 0]) 0
    = Rmax (dot (nth i [[1; 0]; [0; -1]] []) [2; 1] - nth i [1; 0] 0) 0.
Proof.
  apply (relu_is_max [2; 1] [[1; 0]; [0; -1]] [1; 0]).
  - repeat constructor.
  - reflexivity.
Defined.

(** ** OmnidirectionalityChecker *)

Section OmnidirProperties.

Context {lib : NumLib}.

Lemma is_omnidir_not_frame (W : matrix) :
  matrix_rank W <> ncols W ->
  is_omnidir W = (PyNone, [Line not_a_frame_msg]).
Proof.
  intros Hrank. unfold is_omnidir.
  apply Nat.eqb_neq in Hrank. now rewrite Hrank.
Qed.

Lemma is_omnidir_frame (W : matrix) :
  matrix_rank W = ncols W ->
  is_omnidir W =
  if String.eqb (message (omnidir_lp W)) infeasible_msg then (PyBool false, [])
  else if String.eqb (message (omnidir_lp W)) optimal_msg then
    if existsb (fun xi => Rltb xi 1e-10) (lp_x (omnidir_lp W))
    then (PyBool true, [Line boundary_msg]) else (PyBool true, [])
  else (PyNone, []).
Proof.
  intros Hrank. unfold is_omnidir, omnidir_lp.
  apply Nat.eqb_eq in Hrank. now rewrite Hrank.
Qed.

Lemma existsb_Rltb (t : R) (l : vec) :
  existsb (fun xi => Rltb xi t) l = true <-> Exists (fun xi => xi < t) l.
Proof.
  rewrite existsb_exists, Exists_exists.
  split; intros [xi [Hin Hlt]]; exists xi; split; auto;
    now apply Rltb_spec.
Qed.

(** With the two sentences of the older solvers of [linprog]. For a
    full-rank [W]: on the first [is_omnidir] returns [False]; on the
    second it returns [True] whatever the solution is, and it prints the
    boundary warning exactly when some coordinate of the solution is
    strictly below [1e-10]. *)
Lemma is_omnidir_result (W : matrix) :
  matrix_rank W = ncols W ->
  (message (omnidir_lp W) = infeasible_msg ->
     is_omnidir W = (PyBool false, [])) /\
  (message (omnidir_lp W) = optimal_msg ->
     fst (is_omnidir W) = PyBool true /\
     (Exists (fun xi => xi < 1e-10) (lp_x (omnidir_lp W)) ->
        snd (is_omnidir W) = [Line boundary_msg]) /\
     (~ Exists (fun xi => xi < 1e-10) (lp_x (omnidir_lp W)) ->
        snd (is_omnidir W) = [])).
Proof.
  intros Hrank. rewrite (is_omnidir_frame W Hrank). split.
  - intros Hmsg. rewrite Hmsg. reflexivity.
  - intros Hmsg. rewrite Hmsg. simpl.
    destruct (existsb _ _) eqn:Hex.
    + apply existsb_Rltb in Hex. repeat split; auto.
      intros Hno. contradiction.
    + repeat split; auto.
      intros Hyes. apply existsb_Rltb in Hyes. congruence.
Qed.

(** C9 on the code. For a full-rank [W], when the message of [linprog]
    is neither of the two sentences that [is_omnidir] compares it with,
    no branch returns: the value is [None], neither [True] nor [False],
    nothing is printed, and the test [== False] of [pbe] does not hold of
    it. *)
Theorem is_omnidir_returns_none (W : matrix) :
  matrix_rank W = ncols W ->
  message (omnidir_lp W) <> infeasible_msg ->
  message (omnidir_lp W) <> optimal_msg ->
  is_omnidir W = (PyNone, []) /\
  is_False (fst (is_omnidir W)) = false.
Proof.
  intros Hrank Hinf Hopt. rewrite (is_omnidir_frame W Hrank).
  apply String.eqb_neq in Hinf. apply String.eqb_neq in Hopt.
  rewrite Hinf, Hopt. split; reflexivity.
Qed.

End OmnidirProperties.

(** The cross frame under scipy 1.10.0: the linear program is solved,
    the message carries the solver's status, and [is_omnidir] returns
    [None]. *)
Lemma is_omnidir_returns_none_witness :
  @is_omnidir cross_highs_lib cross = (PyNone, []) /\
  is_False (fst (@is_omnidir cross_highs_lib cross)) = false.
Proof.
  apply (@is_omnidir_returns_none cross_highs_lib cross).
  - reflexivity.
  - discriminate.
  - discriminate.
Defined.

(** ** PBEEngine *)

Section PbeProperties.

Context {lib : NumLib}.

(** What the loop of [pbe] leaves in [alpha_norm]. *)
Lemma pbe_loop_inl (W_norm : matrix) (facets : list (list nat))
  (K : String.string) (verts : list nat) :
  forall acc l,
    pbe_loop W_norm facets K verts acc = Ret (inl l) ->
    exists mcs,
      Forall2 (fun v mc => vertex_min_corr W_norm facets v = Ret mc) verts mcs /\
      l = acc ++ map (domain_clamp K) mcs.
Proof.
  induction verts as [|v verts IH]; intros acc l Hloop; simpl in Hloop.
  - exists []. injection Hloop as <-. split; [constructor | now rewrite app_nil_r].
  - destruct (vertex_min_corr W_norm facets v) as [mc|e] eqn:Hv;
      simpl in Hloop; [| discriminate].
    unfold domain_clamp.
    destruct (String.eqb K "sphere") eqn:Hs.
    + apply String.eqb_eq in Hs. subst K.
      destruct (IH _ _ Hloop) as [mcs [Hall ->]].
      exists (mc :: mcs). split; [now constructor |].
      simpl. now rewrite <- app_assoc.
    + destruct (String.eqb K "ball") eqn:Hb; [| discriminate].
      destruct (IH _ _ Hloop) as [mcs [Hall ->]].
      exists (mc :: mcs). split; [now constructor |].
      unfold domain_clamp. rewrite Hb. simpl. now rewrite <- app_assoc.
Qed.

Lemma pbe_loop_supported (W_norm : matrix) (facets : list (list nat))
  (K : String.string) (verts : list nat) (mcs : vec) :
  supported K ->
  Forall2 (fun v mc => vertex_min_corr W_norm facets v = Ret mc) verts mcs ->
  forall acc,
    pbe_loop W_norm facets K verts acc
    = Ret (inl (acc ++ map (domain_clamp K) mcs)).
Proof.
  intros HK Hall. induction Hall as [|v mc verts mcs Hv Hall IH]; intros acc.
  - simpl. now rewrite app_nil_r.
  - simpl. rewrite Hv. simpl.
    destruct HK as [-> | ->]; simpl; rewrite IH; unfold domain_clamp; simpl;
      now rewrite <- app_assoc.
Qed.

(** When [pbe] returns an array, the check did not say [False], every
    vertex got a value of [min_corr], the radius is not zero, and the
    array is the scaled list of clamped values. *)
Lemma pbe_bias_inv (W : matrix) (facets : list (list nat))
  (K : String.string) (radius : R) (alpha : vec) :
  fst (pbe W facets K radius) = Ret (Bias alpha) ->
  is_False (fst (is_omnidir W)) = false /\
  radius <> 0 /\
  exists mcs,
    Forall2 (fun v mc => vertex_min_corr (fst (norm_row W)) facets v = Ret mc)
            (seq 0 (nrows W)) mcs /\
    alpha = scale_bias (map (domain_clamp K) mcs) (snd (norm_row W)) radius.
Proof.
  unfold pbe.
  destruct (is_omnidir W) as [omni out], (norm_row W) as [W_norm norm].
  cbn [fst snd].
  destruct (is_False omni); cbn [fst]; [discriminate |].
  destruct (pbe_loop W_norm facets K (seq 0 (nrows W)) []) as [[l|s]|e] eqn:Hloop;
    cbn [bind]; try discriminate.
  destruct (Req_dec_T radius 0) as [Hr|Hr]; [discriminate |].
  intros Heq. injection Heq as <-.
  apply pbe_loop_inl in Hloop. destruct Hloop as [mcs [Hall ->]].
  repeat split; auto. exists mcs. split; auto.
Qed.

Lemma pbe_bias_intro (W : matrix) (facets : list (list nat))
  (K : String.string) (radius : R) (mcs : vec) :
  supported K ->
  is_False (fst (is_omnidir W)) = false ->
  radius <> 0 ->
  Forall2 (fun v mc => vertex_min_corr (fst (norm_row W)) facets v = Ret mc)
          (seq 0 (nrows W)) mcs ->
  pbe W facets K radius
  = (Ret (Bias (scale_bias (map (domain_clamp K) mcs) (snd (norm_row W)) radius)),
     snd (is_omnidir W)).
Proof.
  intros HK Hom Hr Hall. unfold pbe.
  destruct (is_omnidir W) as [omni out], (norm_row W) as [W_norm norm].
  cbn [fst snd] in *. rewrite Hom.
  rewrite (pbe_loop_supported _ _ _ _ _ HK Hall). cbn [bind app].
  destruct (Req_dec_T radius 0); [contradiction | reflexivity].
Qed.

Lemma Forall2_length_seq {A : Type} (P : nat -> A -> Prop) (n : nat) (l : list A) :
  Forall2 P (seq 0 n) l -> length l = n.
Proof.
  intros H. apply Forall2_length in H. now rewrite length_seq in H.
Qed.

Lemma Forall2_seq_nth {A : Type} (P : nat -> A -> Prop) (d : A) (l : list A) :
  forall s n, Forall2 P (seq s n) l ->
  forall i, (i < n)%nat -> P (s + i)%nat (nth i l d).
Proof.
  induction l as [|a l IH]; intros s n H i Hi.
  - apply Forall2_length in H. rewrite length_seq in H. simpl in H. lia.
  - destruct n as [|n]; [lia |]. simpl in H. inversion H; subst.
    destruct i as [|i]; simpl.
    + now rewrite Nat.add_0_r.
    + rewrite <- Nat.add_succ_comm. apply (IH (S s) n); [assumption | lia].
Qed.

Lemma scale_bias_length (alpha_norm norm : vec) (radius : R) :
  length alpha_norm = length norm ->
  length (scale_bias alpha_norm norm radius) = length norm.
Proof.
  intros H. unfold scale_bias.
  rewrite length_map, zipWith_length; [exact H | now rewrite length_map].
Qed.

Lemma scale_bias_nth (alpha_norm norm : vec) (radius : R) (i : nat) :
  (i < length alpha_norm)%nat -> (i < length norm)%nat ->
  nth i (scale_bias alpha_norm norm radius) 0
  = nth i alpha_norm 0 / nth i norm 0 / radius.
Proof.
  intros Ha Hn. unfold scale_bias.
  assert (Hz : (i < length (zipWith Rmult alpha_norm (map Rinv norm)))%nat).
  { clear - Ha Hn. revert i alpha_norm Ha Hn.
    induction norm as [|n norm IH]; intros i [|a al] Ha Hn; simpl in *; try lia.
    destruct i; [lia |]. apply -> Nat.succ_lt_mono. apply IH; lia. }
  rewrite (nth_indep _ 0 ((fun a => a * / radius) 0)) by (now rewrite length_map).
  rewrite (map_nth (fun a => a * / radius)).
  rewrite (zipWith_nth Rmult 0 (/ 0) 0) by (rewrite ?length_map; assumption).
  rewrite (map_nth Rinv). reflexivity.
Qed.

(** C7. When [pbe] returns an array for an [m]-row [W], the array has
    length [m], and for every vertex [v] the loop computed a value
    [min_corr] for [v] and entry [v] of the array is that value, clamped
    for the ball, divided by the Euclidean norm of row [v] of [W] and by
    the radius. *)
Theorem pbe_entries (W : matrix) (facets : list (list nat))
  (K : String.string) (radius : R) (alpha : vec) :
  fst (pbe W facets K radius) = Ret (Bias alpha) ->
  length alpha = nrows W /\
  forall v, (v < nrows W)%nat ->
    exists min_corr,
      vertex_min_corr (fst (norm_row W)) facets v = Ret min_corr /\
      nth v alpha 0
      = domain_clamp K min_corr / norm2 (nth v W []) / radius.
Proof.
  intros Hpbe. apply pbe_bias_inv in Hpbe.
  destruct Hpbe as [_ [_ [mcs [Hall ->]]]].
  pose proof (Forall2_length_seq _ _ _ Hall) as Hlen.
  destruct (norm_row_shape W) as [_ Hnorm].
  split.
  - rewrite scale_bias_length; [exact Hnorm | rewrite length_map; congruence].
  - intros v Hv. exists (nth v mcs 0). split.
    + apply (Forall2_seq_nth _ 0 mcs 0 (nrows W) Hall v Hv).
    + rewrite scale_bias_nth by (rewrite ?length_map; lia).
      rewrite norm_row_norms by exact Hv.
      rewrite (nth_indep _ 0 (domain_clamp K 0)) by (rewrite length_map; lia).
      now rewrite (map_nth (domain_clamp K)).
Qed.

Lemma scale_bias_le (l1 l2 : vec) (radius : R) :
  0 < radius ->
  Forall2 Rle l1 l2 ->
  forall norm, Forall (fun n => 0 < n) norm ->
  Forall2 Rle (scale_bias l1 norm radius) (scale_bias l2 norm radius).
Proof.
  intros Hr Hle. unfold scale_bias.
  induction Hle as [|a b l1 l2 Hab Hle IH]; intros norm Hnorm.
  - constructor.
  - destruct Hnorm as [|n norm Hn Hnorm]; simpl; constructor.
    + apply Rmult_le_compat_r; [left; now apply Rinv_0_lt_compat |].
      apply Rmult_le_compat_r; [left; now apply Rinv_0_lt_compat | exact Hab].
    + apply IH. exact Hnorm.
Qed.

Lemma scale_bias_nonpos (l : vec) (radius : R) :
  0 < radius ->
  Forall (fun a => a <= 0) l ->
  forall norm, Forall (fun n => 0 < n) norm ->
  Forall (fun a => a <= 0) (scale_bias l norm radius).
Proof.
  intros Hr Hl. unfold scale_bias.
  induction Hl as [|a l Ha Hl IH]; intros norm Hnorm.
  - constructor.
  - destruct Hnorm as [|n norm Hn Hnorm]; simpl; constructor.
    + assert (Hpos : 0 < / n * / radius).
      { apply Rmult_lt_0_compat; now apply Rinv_0_lt_compat. }
      rewrite Rmult_assoc. nra.
    + apply IH. exact Hnorm.
Qed.

Lemma norms_positive (W : matrix) :
  Forall (fun row => norm2 row <> 0) W ->
  Forall (fun n => 0 < n) (snd (norm_row W)).
Proof.
  intros H. unfold norm_row. simpl.
  induction H as [|row W Hrow H IH]; simpl; constructor; auto.
  pose proof (norm2_nonneg row). lra.
Qed.

(** C1. For a frame [W] with nonzero rows and a radius [r > 0]: when
    [pbe] returns a bias vector for the sphere, it returns one for the
    ball too, every entry of the ball vector is at most the entry of the
    sphere vector at the same position, and every entry of the ball vector
    is at most 0. *)
Theorem pbe_ball_le_sphere (W : matrix) (facets : list (list nat))
  (r : R) (alpha_sphere : vec) :
  0 < r ->
  Forall (fun row => norm2 row <> 0) W ->
  fst (pbe W facets "sphere" r) = Ret (Bias alpha_sphere) ->
  exists alpha_ball,
    fst (pbe W facets "ball" r) = Ret (Bias alpha_ball) /\
    Forall2 Rle alpha_ball alpha_sphere /\
    Forall (fun a => a <= 0) alpha_ball.
Proof.
  intros Hr Hrows Hsphere. apply pbe_bias_inv in Hsphere.
  destruct Hsphere as [Hom [Hr0 [mcs [Hall ->]]]].
  pose proof (norms_positive W Hrows) as Hnorm.
  eexists. split; [| split].
  - rewrite (pbe_bias_intro W facets "ball" r mcs); auto.
    + reflexivity.
    + now right.
  - apply scale_bias_le; auto.
    clear. induction mcs as [|mc mcs IH]; simpl; constructor; auto.
    unfold domain_clamp. simpl. apply Rmin_l.
  - apply scale_bias_nonpos; auto.
    clear. induction mcs as [|mc mcs IH]; simpl; constructor; auto.
    unfold domain_clamp. simpl. apply Rmin_r.
Qed.

(** *** Transposes and pairwise correlations *)

Lemma map_seq_nth {A B : Type} (f : A -> B) (d : A) (l : list A) :
  map (fun j => f (nth j l d)) (seq 0 (length l)) = map f l.
Proof.
  induction l as [|a l IH]; simpl; [reflexivity |].
  f_equal. rewrite <- seq_shift, map_map. exact IH.
Qed.

Lemma column_transpose (M : matrix) (n j : nat) :
  rectangular n M -> ncols M = n -> (j < length M)%nat ->
  column (transpose M) j = nth j M [].
Proof.
  intros Hrect Hn Hj. unfold transpose, column at 1.
  rewrite map_map, Hn.
  assert (Hrow : length (nth j M []) = n).
  { unfold rectangular in Hrect. rewrite Forall_forall in Hrect.
    apply Hrect. now apply nth_In. }
  transitivity (map (fun a : R => a) (nth j M [])); [| apply map_id].
  rewrite <- (map_seq_nth (fun a => a) 0 (nth j M [])), Hrow.
  apply map_ext. intros i. unfold column.
  rewrite (nth_indep _ 0 ((fun row => nth i row 0) [])) by (now rewrite length_map).
  now rewrite (map_nth (fun row => nth i row 0)).
Qed.

Lemma ncols_transpose (M : matrix) :
  (0 < ncols M)%nat -> ncols (transpose M) = length M.
Proof.
  intros Hn. unfold transpose.
  destruct (ncols M) as [|n]; [lia |]. simpl. unfold column. apply length_map.
Qed.

(** [v.dot(M.T)] lists the dot products of [v] with the rows of [M]. *)
Lemma vecmat_transpose (v : vec) (M : matrix) (n : nat) :
  (0 < n)%nat -> rectangular n M -> M <> [] ->
  vecmat v (transpose M) = map (dot v) M.
Proof.
  intros Hn Hrect Hne.
  assert (Hc : ncols M = n).
  { destruct M as [|row M]; [contradiction |]. now inversion Hrect. }
  unfold vecmat. rewrite ncols_transpose by lia.
  rewrite <- (map_seq_nth (dot v) [] M).
  apply map_ext_in. intros j Hj. apply in_seq in Hj.
  f_equal. apply (column_transpose M n); auto. exact (proj2 Hj).
Qed.

(** *** Minima *)

Lemma fold_left_Rmin (l : vec) :
  forall a, is_minimum (fold_left Rmin l a) (a :: l).
Proof.
  induction l as [|b l IH]; intros a; simpl.
  - split; [now left | apply Forall_cons; [lra | apply Forall_nil]].
  - destruct (IH (Rmin a b)) as [Hin Hall]. inversion Hall as [|? ? Hhd Htl]; subst.
    split.
    + destruct Hin as [Hin | Hin]; [| now right; right].
      rewrite <- Hin. unfold Rmin.
      destruct (Rle_dec a b); [now left | now right; left].
    + pose proof (Rmin_l a b). pose proof (Rmin_r a b).
      apply Forall_cons; [lra |]. apply Forall_cons; [lra | exact Htl].
Qed.

Lemma np_min_minimum (l : vec) (a : R) :
  np_min l = Ret a -> is_minimum a l.
Proof.
  destruct l as [|b l]; simpl; [discriminate |].
  intros H. injection H as <-. apply fold_left_Rmin.
Qed.

Lemma np_min_nonempty (l : vec) :
  l <> [] -> exists a, np_min l = Ret a.
Proof.
  destruct l as [|b l]; [contradiction |]. intros _. simpl. eauto.
Qed.

(** *** Index arrays *)

Lemma insert_unique_In (k j : nat) (l : list nat) :
  In j (insert_unique k l) <-> j = k \/ In j l.
Proof.
  induction l as [|h t IH]; simpl.
  - intuition.
  - destruct (k <? h)%nat; [simpl; intuition |].
    destruct (k =? h)%nat eqn:Hkh.
    + apply Nat.eqb_eq in Hkh. subst. simpl. intuition.
    + simpl. rewrite IH. intuition.
Qed.

Lemma np_unique_In (j : nat) (l : list nat) :
  In j (np_unique l) <-> In j l.
Proof.
  induction l as [|k l IH]; simpl; [reflexivity |].
  rewrite insert_unique_In, IH. intuition.
Qed.

Lemma mem_nat_In (k : nat) (l : list nat) : mem_nat k l = true <-> In k l.
Proof.
  unfold mem_nat. rewrite existsb_exists. split.
  - intros [j [Hin Heq]]. apply Nat.eqb_eq in Heq. now subst.
  - intros Hin. exists k. split; [exact Hin | apply Nat.eqb_refl].
Qed.

(** The neighbourhood of [vert]: the vertices of the facets that contain
    [vert]. *)
Lemma neighbours_In (facets : list (list nat)) (vert j : nat) :
  In j (neighbours facets vert) <->
  exists f, In f facets /\ In vert f /\ In j f.
Proof.
  unfold neighbours. rewrite np_unique_In, in_concat. split.
  - intros [f [Hf Hj]]. apply filter_In in Hf. destruct Hf as [Hf Hv].
    apply mem_nat_In in Hv. eauto.
  - intros [f [Hf [Hv Hj]]]. exists f. split; [| exact Hj].
    apply filter_In. split; [exact Hf | now apply mem_nat_In].
Qed.

Lemma take_rows_In {A : Type} (rows : list A) (idx : list nat) :
  forall taken, take_rows rows idx = Ret taken ->
  length taken = length idx /\ Forall (fun r => In r rows) taken.
Proof.
  induction idx as [|i idx IH]; intros taken H; simpl in H.
  - injection H as <-. split; [reflexivity | constructor].
  - destruct (nth_error rows i) as [r|] eqn:Hr; [| discriminate].
    destruct (take_rows rows idx) as [rest|e]; simpl in H; [| discriminate].
    injection H as <-. destruct (IH rest eq_refl) as [Hlen Hall].
    split; [simpl; now rewrite Hlen |].
    constructor; [now apply nth_error_In in Hr | exact Hall].
Qed.

(** *** The conic fallback *)

Lemma cp_optimal_value_unique (P : cp_problem) (v v' : R) :
  cp_optimal_value P v -> cp_optimal_value P v' -> v = v'.
Proof.
  intros [[c [Hc Hv]] Hmin] [[c' [Hc' Hv']] Hmin'].
  pose proof (Hmin c' Hc'). pose proof (Hmin' c Hc). lra.
Qed.

Lemma row_at_some {A : Type} (rows : list A) (i : nat) (r : A) :
  nth_error rows i = Some r -> row_at rows i = Ret r.
Proof. intros H. unfold row_at. now rewrite H. Qed.

(** The value of [min_corr] in terms of the pairwise correlations. *)
Lemma vertex_min_corr_unfold (W_norm : matrix) (facets : list (list nat))
  (v n : nat) (Wv : vec) (Wnb : matrix) :
  facets <> [] ->
  (0 < n)%nat -> rectangular n W_norm ->
  nth_error W_norm v = Some Wv ->
  take_rows W_norm (neighbours facets v) = Ret Wnb ->
  Wnb <> [] ->
  vertex_min_corr W_norm facets v =
  min_corr <- np_min (map (dot Wv) Wnb) ;;
  if Rltb min_corr 0 then alpha_S Wnb else Ret min_corr.
Proof.
  intros Hf Hn Hrect Hv Hnb Hne. unfold vertex_min_corr.
  destruct facets as [|f facets]; [contradiction |].
  rewrite (row_at_some _ _ _ Hv). cbn [bind]. rewrite Hnb. cbn [bind].
  rewrite (vecmat_transpose Wv Wnb n); auto.
  apply take_rows_In in Hnb. destruct Hnb as [_ Hin].
  unfold rectangular in *. rewrite Forall_forall in *.
  intros row Hrow. apply Hrect. now apply Hin.
Qed.

(** The problem that [alpha_S] hands to the solver for row [Fi] of [F]
    is the conic problem of [F] and [Fi]. *)
Lemma Forall2_zeros_le (c : vec) :
  Forall2 Rle (repeat 0 (length c)) c <-> Forall (fun ci => 0 <= ci) c.
Proof.
  induction c as [|a c IH]; simpl.
  - split; constructor.
  - split; intros H; inversion H; subst; constructor; auto; now apply IH.
Qed.

Lemma alpha_S_problem_feasible (F : matrix) (Fi c : vec) :
  cp_feasible (alpha_S_problem F Fi) c <-> conic_feasible F c.
Proof.
  unfold cp_feasible, conic_feasible, alpha_S_problem.
  cbn [cp_size cp_soc_matrix cp_soc_bound cp_lower].
  split; intros [Hlen [Hnorm Hpos]]; (split; [exact Hlen |]);
    (split; [exact Hnorm |]).
  - apply Forall2_zeros_le. now rewrite Hlen.
  - rewrite <- Hlen. now apply Forall2_zeros_le.
Qed.

Lemma alpha_S_problem_optimum (F : matrix) (Fi : vec) (val : R) :
  cp_optimal_value (alpha_S_problem F Fi) val <-> conic_optimum F Fi val.
Proof.
  unfold cp_optimal_value, conic_optimum.
  split; intros [[c [Hc Hval]] Hmin]; split.
  - exists c. split; [now apply (alpha_S_problem_feasible F Fi) | exact Hval].
  - intros c' Hc'. apply (Hmin c'). now apply (alpha_S_problem_feasible F Fi).
  - exists c. split; [now apply (alpha_S_problem_feasible F Fi) | exact Hval].
  - intros c' Hc'. apply (Hmin c'). now apply (alpha_S_problem_feasible F Fi).
Qed.


End PbeProperties.

(** ** FacetReconstructor *)

Section ReluInvProperties.

Context {lib : NumLib}.

Lemma where_pos_In (z : vec) :
  forall s k, In k (where_pos z s) <->
              (s <= k)%nat /\ in_support z (k - s).
Proof.
  unfold in_support.
  induction z as [|a z IH]; intros s k; simpl.
  - split; [contradiction | intros [_ [H _]]; lia].
  - destruct (Rltb 0 a) eqn:Ha; simpl; rewrite IH.
    + apply Rltb_spec in Ha. split.
      * intros [<- | [Hle [Hlt Hpos]]].
        -- rewrite Nat.sub_diag. repeat split; auto; lia.
        -- replace (k - s)%nat with (S (k - S s)) by lia.
           repeat split; auto; lia.
      * intros [Hle [Hlt Hpos]].
        destruct (Nat.eq_dec s k) as [-> | Hne]; [now left | right].
        replace (k - s)%nat with (S (k - S s)) in Hpos, Hlt by lia.
        repeat split; auto; lia.
    + assert (Hna : ~ 0 < a).
      { intros H. apply Rltb_spec in H. congruence. }
      split.
      * intros [Hle [Hlt Hpos]].
        replace (k - s)%nat with (S (k - S s)) by lia.
        repeat split; auto; lia.
      * intros [Hle [Hlt Hpos]].
        destruct (Nat.eq_dec s k) as [-> | Hne].
        -- rewrite Nat.sub_diag in Hpos. contradiction.
        -- replace (k - s)%nat with (S (k - S s)) in Hpos, Hlt by lia.
           repeat split; auto; lia.
Qed.

(** [all(k in I for k in facet)] holds exactly when every vertex of the
    facet is in the support. *)
Lemma all_in_support (z : vec) (f : list nat) :
  all_in f (where_pos z 0) = true <-> Forall (in_support z) f.
Proof.
  unfold all_in. rewrite forallb_forall, Forall_forall.
  split; intros H k Hk.
  - specialize (H k Hk). apply mem_nat_In, where_pos_In in H.
    rewrite Nat.sub_0_r in H. tauto.
  - apply mem_nat_In, where_pos_In. rewrite Nat.sub_0_r.
    split; [lia | now apply H].
Qed.

Lemma facet_scan_first (I : list nat) (facets : list (list nat)) :
  forall i s, first_match I facets i ->
              facet_scan I facets s = Some (s + i)%nat.
Proof.
  induction facets as [|f facets IH]; intros i s [[g [Hg Hall]] Hbefore].
  - destruct i; discriminate.
  - destruct i as [|i]; simpl in Hg.
    + injection Hg as ->. simpl. rewrite Hall. now rewrite Nat.add_0_r.
    + simpl. rewrite (Hbefore 0%nat f (Nat.lt_0_succ i) eq_refl).
      destruct facets as [|f' facets]; [destruct i; discriminate |].
      rewrite (IH i (S s)); [f_equal; lia |].
      split; [eauto |].
      intros j h Hj Hh. apply (Hbefore (S j) h); [lia | exact Hh].
Qed.

(** When no facet matches, the loop ends with [i] at the last position. *)
Lemma facet_scan_none (I : list nat) (facets : list (list nat)) :
  forall s, facets <> [] ->
            Forall (fun f => all_in f I = false) facets ->
            facet_scan I facets s = Some (s + length facets - 1)%nat.
Proof.
  induction facets as [|f facets IH]; intros s Hne Hall; [contradiction |].
  inversion Hall as [|? ? Hf Hrest]; subst. cbn [facet_scan]. rewrite Hf.
  destruct facets as [|f' facets]; [f_equal; cbn [length]; lia |].
  rewrite IH; [f_equal; cbn [length]; lia | discriminate | exact Hrest].
Qed.

Lemma take_rows_map {A : Type} (d : A) (rows : list A) (idx : list nat) :
  Forall (fun k => (k < length rows)%nat) idx ->
  take_rows rows idx = Ret (map (fun k => nth k rows d) idx).
Proof.
  induction 1 as [|k idx Hk Hidx IH]; simpl; [reflexivity |].
  destruct (nth_error rows k) as [r|] eqn:Hr.
  - rewrite IH. simpl. now rewrite (nth_error_nth _ _ d Hr).
  - apply nth_error_None in Hr. lia.
Qed.

Lemma zipWith_map {A B C D : Type} (f : A -> B -> C) (g : D -> A) (h : D -> B)
  (l : list D) :
  zipWith f (map g l) (map h l) = map (fun k => f (g k) (h k)) l.
Proof. induction l as [|k l IH]; simpl; [reflexivity | now rewrite IH]. Qed.

(** The result of [relu_inv] in facet mode once the loop has stopped at
    facet [i], all of whose indices are valid. *)
Lemma relu_inv_at (z : vec) (W : matrix) (b : vec)
  (facets : list (list nat)) (i : nat) (f_ind : list nat) :
  length W = length z -> length b = length z ->
  facet_scan (where_pos z 0) facets 0 = Some i ->
  nth_error facets i = Some f_ind ->
  Forall (fun k => (k < length z)%nat) f_ind ->
  relu_inv z W b facets "facet"
  = (Ret (lstsq (facet_rows W f_ind) (facet_rhs z b f_ind)),
     [FacetLine i f_ind]).
Proof.
  intros HW Hb Hscan Hnth Hidx. unfold relu_inv.
  replace (String.eqb "facet" "facet") with true by reflexivity.
  rewrite Hscan, Hnth.
  rewrite (take_rows_map [] W), (take_rows_map 0 b), (take_rows_map 0 z);
    try (eapply Forall_impl; [| exact Hidx]; simpl; intros; lia).
  cbn [bind]. unfold vadd. now rewrite zipWith_map.
Qed.

(** When no facet has all its vertices in the support, the facet that
    [relu_inv] uses is the last one of the list. *)
Lemma relu_inv_no_match (z : vec) (W : matrix) (b : vec)
  (facets : list (list nat)) (f_last : list nat) :
  length W = length z -> length b = length z ->
  Forall (fun f => ~ Forall (in_support z) f) facets ->
  nth_error facets (length facets - 1) = Some f_last ->
  Forall (fun k => (k < length z)%nat) f_last ->
  relu_inv z W b facets "facet"
  = (Ret (lstsq (facet_rows W f_last) (facet_rhs z b f_last)),
     [FacetLine (length facets - 1) f_last]).
Proof.
  intros HW Hb Hnone Hlast Hidx.
  apply relu_inv_at; auto.
  rewrite (facet_scan_none _ _ 0%nat); [reflexivity | |].
  - intros ->. discriminate.
  - eapply Forall_impl; [| exact Hnone]. intros f Hf.
    destruct (all_in f (where_pos z 0)) eqn:Hall; [| reflexivity].
    apply all_in_support in Hall. contradiction.
Qed.

(** C5. In facet mode, when facet [i] of the list is the first one whose
    vertices are all in the support of [z], [relu_inv] reports facet [i]
    and returns what [lstsq] gives for the rows of [W] at that facet and
    the right-hand side [z_f + b_f]; when [lstsq] answers this call with a
    least-squares solution, the returned [x] minimizes
    [|W_f x - (z_f + b_f)|]. *)
Theorem relu_inv_first_facet (z : vec) (W : matrix) (b : vec)
  (facets : list (list nat)) (i : nat) (f_ind : list nat) :
  length W = length z -> length b = length z ->
  nth_error facets i = Some f_ind ->
  Forall (in_support z) f_ind ->
  (forall j f, (j < i)%nat -> nth_error facets j = Some f ->
               ~ Forall (in_support z) f) ->
  least_squares (facet_rows W f_ind) (facet_rhs z b f_ind)
                (lstsq (facet_rows W f_ind) (facet_rhs z b f_ind)) ->
  exists x,
    relu_inv z W b facets "facet" = (Ret x, [FacetLine i f_ind]) /\
    x = lstsq (facet_rows W f_ind) (facet_rhs z b f_ind) /\
    least_squares (facet_rows W f_ind) (facet_rhs z b f_ind) x.
Proof.
  intros HW Hb Hnth Hact Hbefore Hls.
  eexists. split; [| split; [reflexivity | exact Hls]].
  apply relu_inv_at; auto.
  - apply (facet_scan_first _ _ i 0%nat). split.
    + exists f_ind. split; [exact Hnth | now apply all_in_support].
    + intros j f Hj Hf. specialize (Hbefore j f Hj Hf).
      destruct (all_in f (where_pos z 0)) eqn:Hall; [| reflexivity].
      apply all_in_support in Hall. contradiction.
  - eapply Forall_impl; [| exact Hact]. now intros k [Hk _].
Qed.

(** *** Exact reconstruction on an active facet *)

Lemma dot_self_nonneg (r : vec) : 0 <= dot r r.
Proof. induction r as [|a r IH]; simpl; [lra | nra]. Qed.

Lemma dot_self_zero (r : vec) : dot r r = 0 -> Forall (fun a => a = 0) r.
Proof.
  induction r as [|a r IH]; simpl; intros H; [constructor |].
  pose proof (dot_self_nonneg r).
  constructor; [nra | apply IH; nra].
Qed.

Lemma vsub_zero (u y : vec) :
  length u = length y -> Forall (fun a => a = 0) (vsub u y) -> u = y.
Proof.
  revert y. induction u as [|a u IH]; intros [|c y] Hlen H; simpl in *;
    try discriminate; [reflexivity |].
  inversion H; subst. f_equal; [lra | apply IH; auto].
Qed.

Lemma residual_self (A : matrix) (x : vec) : residual A (matvec A x) x = 0.
Proof.
  unfold residual. induction (matvec A x) as [|a u IH]; simpl; [reflexivity |].
  unfold vsub in IH. rewrite IH. ring.
Qed.

(** A least-squares answer to a system that has an exact solution solves
    the system. *)
Lemma least_squares_exact (A : matrix) (x x_hat : vec) :
  least_squares A (matvec A x) x_hat -> matvec A x_hat = matvec A x.
Proof.
  intros Hls. specialize (Hls x). rewrite residual_self in Hls.
  unfold residual in Hls.
  pose proof (dot_self_nonneg (vsub (matvec A x_hat) (matvec A x))) as Hge.
  apply vsub_zero.
  - unfold matvec. now rewrite !length_map.
  - apply dot_self_zero. lra.
Qed.

(** On the support, the forward map is [W x - b]. *)
Lemma relu_on_support (x : vec) (W : matrix) (b : vec) (k : nat) :
  length b = nrows W ->
  in_support (relu x W b) k ->
  nth k (relu x W b) 0 + nth k b 0 = dot (nth k W []) x.
Proof.
  intros Hb [Hk Hpos]. rewrite relu_length in Hk by exact Hb.
  rewrite relu_nth in * by assumption.
  unfold Rmax in *. destruct (Rle_dec _ _); lra.
Qed.

Lemma facet_rhs_relu (x : vec) (W : matrix) (b : vec) (f_ind : list nat) :
  length b = nrows W ->
  Forall (in_support (relu x W b)) f_ind ->
  facet_rhs (relu x W b) b f_ind = matvec (facet_rows W f_ind) x.
Proof.
  intros Hb Hact. unfold facet_rhs, facet_rows, matvec. rewrite map_map.
  apply map_ext_in. intros k Hk.
  rewrite Forall_forall in Hact. now apply relu_on_support, Hact.
Qed.


End ReluInvProperties.

(** ** The examples evaluated *)

Ltac Rltb_eval :=
  repeat match goal with
  | |- context [Rltb ?a ?b] =>
      first [rewrite (Rltb_true a b) by lra | rewrite (Rltb_false a b) by lra]
  end.

Lemma norm2_unit (row : vec) : dot row row = 1 -> norm2 row = 1.
Proof. intros H. unfold norm2. rewrite H. apply sqrt_1. Qed.

Lemma is_omnidir_cross : @is_omnidir cross_lib cross = (PyBool true, []).
Proof.
  rewrite is_omnidir_frame by reflexivity.
  unfold omnidir_lp. cbn. Rltb_eval. reflexivity.
Qed.

Lemma norm_row_cross : norm_row cross = (cross, [1; 1; 1; 1]).
Proof.
  unfold norm_row, cross. cbn [map zipWith].
  rewrite !norm2_unit by (simpl; lra).
  repeat f_equal; lra.
Qed.

Lemma is_minimum_unique (a a' : R) (l : vec) :
  is_minimum a l -> is_minimum a' l -> a = a'.
Proof.
  intros [Hin Hall] [Hin' Hall']. rewrite Forall_forall in Hall, Hall'.
  pose proof (Hall _ Hin'). pose proof (Hall' _ Hin). lra.
Qed.

Lemma np_min_of_minimum (a : R) (l : vec) : is_minimum a l -> np_min l = Ret a.
Proof.
  intros Hmin. destruct (np_min_nonempty l) as [a' Ha'].
  - intros ->. destruct Hmin as [[] _].
  - rewrite Ha'. f_equal. apply np_min_minimum in Ha'.
    exact (is_minimum_unique _ _ _ Ha' Hmin).
Qed.

Section Evaluation.

Context {lib : NumLib}.

Lemma vertex_min_corr_pairwise (W_norm : matrix) (facets : list (list nat))
  (v n : nat) (Wv : vec) (Wnb : matrix) (p : R) :
  facets <> [] -> (0 < n)%nat -> rectangular n W_norm ->
  nth_error W_norm v = Some Wv ->
  take_rows W_norm (neighbours facets v) = Ret Wnb ->
  is_minimum p (map (dot Wv) Wnb) -> ~ p < 0 ->
  vertex_min_corr W_norm facets v = Ret p.
Proof.
  intros Hf Hn Hrect Hv Hnb Hmin Hp.
  rewrite (vertex_min_corr_unfold W_norm facets v n Wv Wnb); auto.
  - rewrite (np_min_of_minimum _ _ Hmin). cbn [bind].
    now rewrite (Rltb_false _ _ Hp).
  - intros ->. destruct Hmin as [[] _].
Qed.

Lemma vertex_min_corr_fallback (W_norm : matrix) (facets : list (list nat))
  (v n : nat) (Wv : vec) (Wnb : matrix) (p : R) :
  facets <> [] -> (0 < n)%nat -> rectangular n W_norm ->
  nth_error W_norm v = Some Wv ->
  take_rows W_norm (neighbours facets v) = Ret Wnb ->
  is_minimum p (map (dot Wv) Wnb) -> p < 0 ->
  vertex_min_corr W_norm facets v = alpha_S Wnb.
Proof.
  intros Hf Hn Hrect Hv Hnb Hmin Hp.
  rewrite (vertex_min_corr_unfold W_norm facets v n Wv Wnb); auto.
  - rewrite (np_min_of_minimum _ _ Hmin). cbn [bind].
    now rewrite (Rltb_true _ _ Hp).
  - intros ->. destruct Hmin as [[] _].
Qed.

End Evaluation.

Tactic Notation "minimum_at" integer(k) :=
  split;
  [ do k right; left; simpl; lra
  | repeat (apply Forall_cons; [simpl; lra |]); apply Forall_nil ].

Lemma rectangular_cross : rectangular 2 cross.
Proof. repeat (apply Forall_cons; [reflexivity |]). apply Forall_nil. Qed.

Lemma vertex_min_corr_cross (lib : NumLib) :
  Forall2 (fun v mc => vertex_min_corr cross cross_facets v = Ret mc)
          (seq 0 4) [0; 0; 0; 0].
Proof.
  repeat apply Forall2_cons; try apply Forall2_nil.
  - eapply (vertex_min_corr_pairwise cross cross_facets 0 2);
      try reflexivity; try discriminate; try lia; try exact rectangular_cross.
    + minimum_at 1.
    + lra.
  - eapply (vertex_min_corr_pairwise cross cross_facets 1 2);
      try reflexivity; try discriminate; try lia; try exact rectangular_cross.
    + minimum_at 0.
    + lra.
  - eapply (vertex_min_corr_pairwise cross cross_facets 2 2);
      try reflexivity; try discriminate; try lia; try exact rectangular_cross.
    + minimum_at 0.
    + lra.
  - eapply (vertex_min_corr_pairwise cross cross_facets 3 2);
      try reflexivity; try discriminate; try lia; try exact rectangular_cross.
    + minimum_at 0.
    + lra.
Qed.

Lemma pbe_cross_sphere :
  @pbe cross_lib cross cross_facets "sphere" 1
  = (Ret (Bias [0; 0; 0; 0]), []).
Proof.
  rewrite (pbe_bias_intro cross cross_facets "sphere" 1 [0; 0; 0; 0]).
  - rewrite is_omnidir_cross, norm_row_cross. cbn.
    repeat f_equal; lra.
  - now left.
  - now rewrite is_omnidir_cross.
  - lra.
  - rewrite norm_row_cross. apply vertex_min_corr_cross.
Qed.

Lemma relu_cross_east : relu [1; 0] cross [0; 0; 0; 0] = [1; 0; 0; 0].
Proof.
  unfold relu, cross. cbn. unfold gate. Rltb_eval.
  repeat f_equal; lra.
Qed.

Lemma where_pos_cross_east : where_pos [1; 0; 0; 0] 0 = [0%nat].
Proof. cbn. Rltb_eval. reflexivity. Qed.

Lemma solve2_quarter_turn : solve2 [[0; 1]; [-1; 0]] [0; 0] = [0; 0].
Proof. unfold solve2. repeat f_equal; field; lra. Qed.

Lemma no_active_facet_cross_east :
  Forall (fun f => ~ Forall (in_support [1; 0; 0; 0]) f) cross_facets.
Proof.
  assert (H : forall f, all_in f (where_pos [1; 0; 0; 0] 0) = false ->
                        ~ Forall (in_support [1; 0; 0; 0]) f).
  { intros f Hf Hact. apply all_in_support in Hact. congruence. }
  rewrite where_pos_cross_east in H.
  repeat (apply Forall_cons; [apply H; reflexivity |]). apply Forall_nil.
Qed.

Lemma relu_inv_cross_east (lib : NumLib) :
  relu_inv [1; 0; 0; 0] cross [0; 0; 0; 0] cross_facets "facet"
  = (Ret (lstsq [[0; 1]; [-1; 0]] [0; 0]), [FacetLine 3 [1; 2]%nat]).
Proof.
  rewrite (relu_inv_no_match _ _ _ _ [1; 2]%nat); try reflexivity.
  - unfold facet_rows, facet_rhs, cross. cbn.
    replace (0 + 0) with 0 by lra. reflexivity.
  - exact no_active_facet_cross_east.
  - repeat (apply Forall_cons; [simpl; lia |]). apply Forall_nil.
Qed.

(** ** Behaviour on frames that are not frames, and on inactive facets *)

Lemma norm_row_twin : norm_row twin = (twin, [1; 1]).
Proof.
  unfold norm_row, twin. cbn [map zipWith].
  rewrite !norm2_unit by (simpl; lra).
  repeat f_equal; lra.
Qed.

Lemma rectangular_twin : rectangular 2 twin.
Proof. repeat (apply Forall_cons; [reflexivity |]). apply Forall_nil. Qed.

Lemma vertex_min_corr_twin (lib : NumLib) :
  Forall2 (fun v mc => vertex_min_corr twin twin_facets v = Ret mc)
          (seq 0 2) [1; 1].
Proof.
  repeat apply Forall2_cons; try apply Forall2_nil.
  - eapply (vertex_min_corr_pairwise twin twin_facets 0 2);
      try reflexivity; try discriminate; try lia; try exact rectangular_twin.
    + minimum_at 0.
    + lra.
  - eapply (vertex_min_corr_pairwise twin twin_facets 1 2);
      try reflexivity; try discriminate; try lia; try exact rectangular_twin.
    + minimum_at 0.
    + lra.
Qed.

(** C2 on the code. For the matrix [twin], of rank 1 with two columns,
    and whatever the library answers besides the rank: [is_omnidir]
    prints that the system is not a frame and returns [None], without a
    look at [linprog]; [pbe] prints the same line and then, instead of
    stopping, returns the bias vector [[1; 1]]. *)
Theorem pbe_proceeds_on_non_frame (lib : NumLib) :
  @matrix_rank lib twin <> ncols twin ->
  @is_omnidir lib twin = (PyNone, [Line not_a_frame_msg]) /\
  @pbe lib twin twin_facets "sphere" 1
  = (Ret (Bias [1; 1]), [Line not_a_frame_msg]).
Proof.
  intros Hrank. pose proof (is_omnidir_not_frame twin Hrank) as Hom.
  split; [exact Hom |].
  rewrite (pbe_bias_intro twin twin_facets "sphere" 1 [1; 1]).
  - rewrite Hom, norm_row_twin. cbn. repeat f_equal; lra.
  - now left.
  - now rewrite Hom.
  - lra.
  - rewrite norm_row_twin. apply vertex_min_corr_twin.
Qed.

Lemma pbe_proceeds_on_non_frame_witness :
  @is_omnidir twin_lib twin = (PyNone, [Line not_a_frame_msg]) /\
  @pbe twin_lib twin twin_facets "sphere" 1
  = (Ret (Bias [1; 1]), [Line not_a_frame_msg]).
Proof.
  apply (pbe_proceeds_on_non_frame twin_lib). simpl. discriminate.
Defined.

(** C3 on the code, at an input with no active facet. For [z = [1; 0; 0; 0]]
    on the cross frame no facet of the list has all its vertices in the
    support, and [relu_inv] in facet mode does not fail: it reports the
    last facet of the list, [[1; 2]] at position 3, and returns what
    [lstsq] gives for the rows of that facet. *)
Theorem relu_inv_uses_last_facet (lib : NumLib) :
  Forall (fun f => ~ Forall (in_support [1; 0; 0; 0]) f) cross_facets /\
  relu_inv [1; 0; 0; 0] cross [0; 0; 0; 0] cross_facets "facet"
  = (Ret (lstsq [[0; 1]; [-1; 0]] [0; 0]), [FacetLine 3 [1; 2]%nat]).
Proof.
  split.
  - exact no_active_facet_cross_east.
  - apply relu_inv_cross_east.
Qed.

(** ** The round trip on the cross frame *)

Ltac facet_side := first [lra | exfalso; intuition lia].

Lemma hull_facets_cross : Forall (hull_facet cross) cross_facets.
Proof.
  assert (H : forall f u h,
             (forall j, (j < 4)%nat ->
                (In j f -> dot (nth j cross []) u = h) /\
                (~ In j f -> dot (nth j cross []) u < h)) ->
             hull_facet cross f).
  { intros f u h Hs. exists u, h. exact Hs. }
  repeat apply Forall_cons; try apply Forall_nil.
  - apply (H _ [1; -1] 1). intros j Hj.
    do 4 (destruct j as [|j]; [simpl; split; intros Hin; facet_side |]). lia.
  - apply (H _ [1; 1] 1). intros j Hj.
    do 4 (destruct j as [|j]; [simpl; split; intros Hin; facet_side |]). lia.
  - apply (H _ [-1; -1] 1). intros j Hj.
    do 4 (destruct j as [|j]; [simpl; split; intros Hin; facet_side |]). lia.
  - apply (H _ [-1; 1] 1). intros j Hj.
    do 4 (destruct j as [|j]; [simpl; split; intros Hin; facet_side |]). lia.
Qed.

Lemma omnidirectional_cross :
  omnidirectional_by cross [1 / 4; 1 / 4; 1 / 4; 1 / 4].
Proof.
  split; [reflexivity |]. split.
  - repeat (apply Forall_cons; [lra |]). apply Forall_nil.
  - unfold lp_matrix, lp_rhs, cross. cbn. repeat f_equal; lra.
Qed.

Lemma full_rank_cross (x : vec) :
  length x = 2%nat -> matvec cross x = [0; 0; 0; 0] -> x = [0; 0].
Proof.
  destruct x as [|a [|b [|c x]]]; try discriminate. intros _ H.
  unfold cross in H. cbn in H. injection H as H0 H1 H2 H3.
  f_equal; [| f_equal]; lra.
Qed.


(** ** The tetrahedron of the notebook *)

Lemma norm2_sqrt (row : vec) (q : R) : dot row row = q -> norm2 row = sqrt q.
Proof. intros H. unfold norm2. now rewrite H. Qed.

Lemma norm2_le_1 (r : vec) : norm2 r <= 1 -> dot r r <= 1.
Proof.
  intros H. destruct (Rle_dec (dot r r) 1) as [Hle | Hgt]; [exact Hle |].
  exfalso. apply Rnot_le_lt in Hgt.
  assert (Hs : sqrt 1 < sqrt (dot r r)) by (apply sqrt_lt_1_alt; lra).
  rewrite sqrt_1 in Hs. unfold norm2 in H. lra.
Qed.

Lemma norm_row_tetr :
  norm_row tetr = (tetr_unit, [sqrt 3; sqrt 3; sqrt 3; sqrt 3]).
Proof.
  unfold norm_row, tetr_unit, tetr. cbn [map zipWith].
  rewrite !(norm2_sqrt _ 3) by (simpl; lra). reflexivity.
Qed.

Lemma inv_sqrt3 : 0 < / sqrt 3 /\ / sqrt 3 * / sqrt 3 = 1 / 3.
Proof.
  assert (H3 : 0 < sqrt 3) by (apply sqrt_lt_R0; lra).
  split; [now apply Rinv_0_lt_compat |].
  rewrite <- Rinv_mult, sqrt_sqrt by lra. lra.
Qed.

Lemma rectangular_tetr_unit : rectangular 3 tetr_unit.
Proof. repeat (apply Forall_cons; [reflexivity |]). apply Forall_nil. Qed.

(** For every row of the normalized tetrahedron the conic problem has
    optimal value -1: the three other rows sum to the opposite of the
    row, and no vector of the unit ball does better. *)
Lemma tetr_optimal (Fi : vec) :
  In Fi tetr_unit -> cp_optimal_value (alpha_S_problem tetr_unit Fi) (-1).
Proof.
  destruct inv_sqrt3 as [Hpos Hsq].
  unfold tetr_unit, tetr. cbn [map]. unfold Rdiv.
  set (t := / sqrt 3) in *.
  assert (Hfeas : forall (c : vec) Fj,
             In c [[0; 1; 1; 1]; [1; 0; 1; 1]; [1; 1; 0; 1]; [1; 1; 1; 0]] ->
             cp_feasible
               (alpha_S_problem
                  [[1 * t; 1 * t; 1 * t]; [-1 * t; -1 * t; 1 * t];
                   [-1 * t; 1 * t; -1 * t]; [1 * t; -1 * t; -1 * t]] Fj) c).
  { intros c Fj Hc.
    destruct Hc as [<- | [<- | [<- | [<- | []]]]];
      (split; [reflexivity |]; split;
       [ right; apply norm2_unit; cbn; nra
       | cbn; repeat (apply Forall2_cons; [lra |]); apply Forall2_nil ]). }
  intros HFi. split.
  - destruct HFi as [<- | [<- | [<- | [<- | []]]]].
    + exists [0; 1; 1; 1]. split; [apply Hfeas; simpl; tauto |]. cbn. nra.
    + exists [1; 0; 1; 1]. split; [apply Hfeas; simpl; tauto |]. cbn. nra.
    + exists [1; 1; 0; 1]. split; [apply Hfeas; simpl; tauto |]. cbn. nra.
    + exists [1; 1; 1; 0]. split; [apply Hfeas; simpl; tauto |]. cbn. nra.
  - intros c [Hlen [Hnorm _]].
    destruct c as [|c0 [|c1 [|c2 [|c3 [|c4 c]]]]]; try discriminate.
    apply norm2_le_1 in Hnorm.
    assert (Hw : (c0 - c1 - c2 + c3) * (c0 - c1 - c2 + c3)
                 + (c0 - c1 + c2 - c3) * (c0 - c1 + c2 - c3)
                 + (c0 + c1 - c2 - c3) * (c0 + c1 - c2 - c3) <= 3).
    { cbn in Hnorm. apply Rmult_le_reg_r with (t * t); [nra |].
      replace (3 * (t * t)) with 1 by lra.
      eapply Rle_trans; [| exact Hnorm]. right. ring. }
    clear Hnorm.
    pose proof (Rle_0_sqr ((c0 - c1 - c2 + c3) - (c0 - c1 + c2 - c3))).
    pose proof (Rle_0_sqr ((c0 - c1 - c2 + c3) - (c0 + c1 - c2 - c3))).
    pose proof (Rle_0_sqr ((c0 - c1 + c2 - c3) - (c0 + c1 - c2 - c3))).
    pose proof (Rle_0_sqr ((c0 - c1 - c2 + c3) + (c0 - c1 + c2 - c3))).
    pose proof (Rle_0_sqr ((c0 - c1 - c2 + c3) + (c0 + c1 - c2 - c3))).
    pose proof (Rle_0_sqr ((c0 - c1 + c2 - c3) + (c0 + c1 - c2 - c3))).
    unfold Rsqr in *.
    destruct HFi as [<- | [<- | [<- | [<- | []]]]]; cbn.
    + apply Rle_trans with ((3 * c0 - c1 - c2 - c3) * (t * t)); [| right; ring].
      rewrite Hsq. nra.
    + apply Rle_trans with ((- c0 + 3 * c1 - c2 - c3) * (t * t)); [| right; ring].
      rewrite Hsq. nra.
    + apply Rle_trans with ((- c0 - c1 + 3 * c2 - c3) * (t * t)); [| right; ring].
      rewrite Hsq. nra.
    + apply Rle_trans with ((- c0 - c1 - c2 + 3 * c3) * (t * t)); [| right; ring].
      rewrite Hsq. nra.
Qed.

Lemma alpha_S_tetr : @alpha_S tetr_lib tetr_unit = Ret (-1).
Proof.
  unfold alpha_S. apply np_min_of_minimum. cbn. minimum_at 0.
Qed.

(** Every vertex of the tetrahedron has all four vertices as neighbours
    and correlation -1/3 with the other three. *)
Lemma tetr_pair_min (Wv : vec) :
  In Wv tetr_unit -> is_minimum (-1 / 3) (map (dot Wv) tetr_unit).
Proof.
  destruct inv_sqrt3 as [Hpos Hsq].
  unfold tetr_unit, tetr. cbn [map]. unfold Rdiv.
  set (t := / sqrt 3) in *.
  intros [<- | [<- | [<- | [<- | []]]]]; split;
    try (repeat (apply Forall_cons; [simpl; nra |]); apply Forall_nil).
  - right; left. simpl. nra.
  - left. simpl. nra.
  - left. simpl. nra.
  - left. simpl. nra.
Qed.

Lemma vertex_min_corr_tetr :
  Forall2 (fun v mc => @vertex_min_corr tetr_lib tetr_unit tetr_facets v = Ret mc)
          (seq 0 4) [-1; -1; -1; -1].
Proof.
  assert (H : forall v Wv, nth_error tetr_unit v = Some Wv ->
            take_rows tetr_unit (neighbours tetr_facets v) = Ret tetr_unit ->
            @vertex_min_corr tetr_lib tetr_unit tetr_facets v = Ret (-1)).
  { intros v Wv Hv Hnb. rewrite <- alpha_S_tetr.
    apply (vertex_min_corr_fallback tetr_unit tetr_facets v 3 Wv tetr_unit (-1 / 3));
      auto; try discriminate; try lia; try lra.
    - exact rectangular_tetr_unit.
    - apply tetr_pair_min. now apply nth_error_In in Hv. }
  repeat (apply Forall2_cons; [eapply H; reflexivity |]). apply Forall2_nil.
Qed.

Lemma is_omnidir_tetr : @is_omnidir tetr_lib tetr = (PyBool true, []).
Proof.
  rewrite is_omnidir_frame by reflexivity.
  unfold omnidir_lp. cbn. Rltb_eval. reflexivity.
Qed.

Lemma pbe_tetr (K : String.string) :
  supported K ->
  @pbe tetr_lib tetr tetr_facets K 1
  = (Ret (Bias [-1 / sqrt 3; -1 / sqrt 3; -1 / sqrt 3; -1 / sqrt 3]), []).
Proof.
  intros HK.
  rewrite (pbe_bias_intro tetr tetr_facets K 1 [-1; -1; -1; -1] HK).
  - rewrite is_omnidir_tetr, norm_row_tetr. cbn [snd].
    assert (Hc : domain_clamp K (-1) = -1).
    { destruct HK as [-> | ->]; unfold domain_clamp; simpl;
        [reflexivity | apply Rmin_left; lra]. }
    unfold scale_bias. cbn [map zipWith]. rewrite Hc.
    assert (H3 : sqrt 3 <> 0) by (apply Rgt_not_eq, sqrt_lt_R0; lra).
    apply (f_equal (fun l => (Ret (Bias l), @nil output))).
    repeat (apply (f_equal2 (@cons R)); [field; exact H3 |]). reflexivity.
  - now rewrite is_omnidir_tetr.
  - lra.
  - rewrite norm_row_tetr. apply vertex_min_corr_tetr.
Qed.

(** The value printed by the notebook for the tetrahedron frame:
    [-0.57735027] in every entry. *)
Lemma tetr_bias_value : Rabs (-1 / sqrt 3 - -0.57735027) < 1e-8.
Proof.
  destruct inv_sqrt3 as [Hpos Hsq]. unfold Rdiv.
  set (t := / sqrt 3) in *.
  assert (0.57735026 < t) by nra.
  assert (t < 0.57735028) by nra.
  apply Rabs_def1; lra.
Qed.

(** ** Instances of the theorems *)

Lemma pbe_ball_le_sphere_witness :
  exists alpha_ball,
    fst (@pbe tetr_lib tetr tetr_facets "ball" 1) = Ret (Bias alpha_ball) /\
    Forall2 Rle alpha_ball
            [-1 / sqrt 3; -1 / sqrt 3; -1 / sqrt 3; -1 / sqrt 3] /\
    Forall (fun a => a <= 0) alpha_ball.
Proof.
  apply (@pbe_ball_le_sphere tetr_lib tetr tetr_facets 1
           [-1 / sqrt 3; -1 / sqrt 3; -1 / sqrt 3; -1 / sqrt 3]).
  - lra.
  - repeat (apply Forall_cons; [apply norm2_nonzero; simpl; lra |]).
    apply Forall_nil.
  - rewrite pbe_tetr; [reflexivity | now left].
Defined.

Lemma pbe_entries_witness :
  length [0; 0; 0; 0] = nrows cross /\
  forall v, (v < nrows cross)%nat ->
    exists min_corr,
      @vertex_min_corr cross_lib (fst (norm_row cross)) cross_facets v
      = Ret min_corr /\
      nth v [0; 0; 0; 0] 0
      = domain_clamp "sphere" min_corr / norm2 (nth v cross []) / 1.
Proof.
  apply (@pbe_entries cross_lib cross cross_facets "sphere" 1 [0; 0; 0; 0]).
  now rewrite pbe_cross_sphere.
Defined.

Lemma is_omnidir_result_witness :
  (message (@omnidir_lp cross_lib cross) = infeasible_msg ->
     @is_omnidir cross_lib cross = (PyBool false, [])) /\
  (message (@omnidir_lp cross_lib cross) = optimal_msg ->
     fst (@is_omnidir cross_lib cross) = PyBool true /\
     (Exists (fun xi => xi < 1e-10) (lp_x (@omnidir_lp cross_lib cross)) ->
        snd (@is_omnidir cross_lib cross) = [Line boundary_msg]) /\
     (~ Exists (fun xi => xi < 1e-10) (lp_x (@omnidir_lp cross_lib cross)) ->
        snd (@is_omnidir cross_lib cross) = [])).
Proof.
  apply (@is_omnidir_result cross_lib cross). reflexivity.
Defined.


Ltac vec_eq := repeat (apply (f_equal2 (@cons R)); [lra |]); reflexivity.

Lemma relu_cross_north_east :
  relu [3 / 5; 4 / 5] cross [0; 0; 0; 0] = [3 / 5; 4 / 5; 0; 0].
Proof.
  unfold relu, cross. cbn. unfold gate. Rltb_eval. vec_eq.
Qed.

Lemma active_cross_north_east :
  Forall (in_support [3 / 5; 4 / 5; 0; 0]) [0; 1]%nat /\
  (forall j f, (j < 1)%nat -> nth_error cross_facets j = Some f ->
               ~ Forall (in_support [3 / 5; 4 / 5; 0; 0]) f).
Proof.
  split.
  - repeat (apply Forall_cons; [split; simpl; [lia | lra] |]). apply Forall_nil.
  - intros j f Hj Hf. destruct j as [|j]; [| lia].
    injection Hf as <-. intros Hact. inversion Hact as [|? ? [_ Hpos] _].
    simpl in Hpos. lra.
Qed.

Lemma solve2_identity (a b : R) : solve2 [[1; 0]; [0; 1]] [a; b] = [a; b].
Proof. unfold solve2. repeat f_equal; field; lra. Qed.

Lemma least_squares_identity (a b : R) :
  least_squares [[1; 0]; [0; 1]] [a; b] [a; b].
Proof.
  intros x'. apply Rle_trans with 0.
  - right. unfold residual. cbn. ring.
  - apply (dot_self_nonneg (vsub (matvec [[1; 0]; [0; 1]] x') [a; b])).
Qed.

Lemma relu_inv_first_facet_witness :
  exists x,
    @relu_inv cross_lib [3 / 5; 4 / 5; 0; 0] cross [0; 0; 0; 0] cross_facets
      "facet" = (Ret x, [FacetLine 1 [0; 1]%nat]) /\
    x = @lstsq cross_lib (facet_rows cross [0; 1]%nat)
          (facet_rhs [3 / 5; 4 / 5; 0; 0] [0; 0; 0; 0] [0; 1]%nat) /\
    least_squares (facet_rows cross [0; 1]%nat)
      (facet_rhs [3 / 5; 4 / 5; 0; 0] [0; 0; 0; 0] [0; 1]%nat) x.
Proof.
  apply (@relu_inv_first_facet cross_lib [3 / 5; 4 / 5; 0; 0] cross
           [0; 0; 0; 0] cross_facets 1 [0; 1]%nat).
  - reflexivity.
  - reflexivity.
  - reflexivity.
  - apply active_cross_north_east.
  - apply active_cross_north_east.
  - unfold facet_rows, facet_rhs, cross. cbn [map nth lstsq cross_lib answers].
    rewrite solve2_identity. apply least_squares_identity.
Defined.


(** * Further properties of the routines *)

(** ** norm_row: unit rows and invariance under scaling *)

Lemma dot_map_scale (k : R) (u v : vec) :
  dot (map (fun a => a * k) u) (map (fun a => a * k) v) = k * k * dot u v.
Proof.
  revert v. induction u as [|a u IH]; intros [|b v]; simpl; try ring.
  rewrite IH. ring.
Qed.

Lemma norm2_sqr (row : vec) : norm2 row * norm2 row = dot row row.
Proof. unfold norm2. apply sqrt_sqrt, dot_self_nonneg. Qed.

Lemma norm2_normalized (row : vec) :
  norm2 row <> 0 -> norm2 (map (fun a => a / norm2 row) row) = 1.
Proof.
  intros Hn. unfold Rdiv. apply norm2_unit.
  rewrite dot_map_scale, <- norm2_sqr. field. exact Hn.
Qed.

Lemma normalized_rows_unit (W : matrix) :
  Forall (fun row => norm2 row <> 0) W ->
  Forall (fun row => norm2 row = 1) (fst (norm_row W)).
Proof.
  intros Hnz. unfold norm_row. cbn [fst].
  induction Hnz as [|row W Hrow Hnz IH]; simpl; constructor; auto.
  now apply norm2_normalized.
Qed.

(** Over the reals: every row of the normalized matrix has Euclidean
    norm 1, and the norms returned are positive, when no row of [W] is
    zero. *)
Theorem norm_row_unit_rows (W : matrix) :
  Forall (fun row => norm2 row <> 0) W ->
  Forall (fun row => norm2 row = 1) (fst (norm_row W)) /\
  Forall (fun n => 0 < n) (snd (norm_row W)).
Proof.
  intros Hnz. split.
  - now apply normalized_rows_unit.
  - now apply norms_positive.
Qed.

Lemma norm_row_unit_rows_witness :
  Forall (fun row => norm2 row = 1) (fst (norm_row [[3; 4]; [0; 2]])) /\
  Forall (fun n => 0 < n) (snd (norm_row [[3; 4]; [0; 2]])).
Proof.
  apply (norm_row_unit_rows [[3; 4]; [0; 2]]).
  repeat (apply Forall_cons; [apply norm2_nonzero; simpl; lra |]).
  apply Forall_nil.
Defined.

Lemma norm2_vscale (d : R) (row : vec) :
  0 <= d -> norm2 (vscale d row) = d * norm2 row.
Proof.
  intros Hd. unfold norm2, vscale.
  replace (dot (map (Rmult d) row) (map (Rmult d) row))
    with (d * d * dot row row).
  - rewrite sqrt_mult by (try apply dot_self_nonneg; nra).
    now rewrite sqrt_square.
  - rewrite <- dot_map_scale. f_equal; apply map_ext; intros; ring.
Qed.

Lemma norm_row_scale_aux (d : vec) (W : matrix) :
  length d = nrows W ->
  Forall (fun di => 0 < di) d ->
  Forall (fun row => norm2 row <> 0) W ->
  fst (norm_row (scale_rows d W)) = fst (norm_row W) /\
  snd (norm_row (scale_rows d W)) = zipWith Rmult d (snd (norm_row W)).
Proof.
  unfold norm_row, scale_rows, nrows. cbn [fst snd].
  revert d. induction W as [|row W IH]; intros [|di d] Hlen Hd Hnz;
    simpl in *; try discriminate; auto.
  inversion Hd as [|? ? Hdi Hd']; subst.
  inversion Hnz as [|? ? Hrow Hnz']; subst.
  destruct (IH d) as [IH1 IH2]; auto.
  rewrite norm2_vscale by lra. split; f_equal; auto.
  unfold vscale. rewrite map_map. apply map_ext. intros a.
  field. split; [exact Hrow | lra].
Qed.

(** Over the reals: multiplying the rows of [W] by positive factors
    leaves the normalized matrix unchanged and multiplies the returned
    norms by the factors. On float64 arrays the normalized entries can
    differ in the last digit ([norm_row_f64_scaling]). *)
Theorem norm_row_scale_invariant (d : vec) (W : matrix) :
  length d = nrows W ->
  Forall (fun di => 0 < di) d ->
  Forall (fun row => norm2 row <> 0) W ->
  fst (norm_row (scale_rows d W)) = fst (norm_row W) /\
  snd (norm_row (scale_rows d W)) = zipWith Rmult d (snd (norm_row W)).
Proof. exact (norm_row_scale_aux d W). Qed.

Lemma norm_row_scale_invariant_witness :
  fst (norm_row (scale_rows [2; 5] [[3; 4]; [0; 2]]))
  = fst (norm_row [[3; 4]; [0; 2]]) /\
  snd (norm_row (scale_rows [2; 5] [[3; 4]; [0; 2]]))
  = zipWith Rmult [2; 5] (snd (norm_row [[3; 4]; [0; 2]])).
Proof.
  apply (norm_row_scale_invariant [2; 5] [[3; 4]; [0; 2]]).
  - reflexivity.
  - repeat (apply Forall_cons; [lra |]). apply Forall_nil.
  - repeat (apply Forall_cons; [apply norm2_nonzero; simpl; lra |]).
    apply Forall_nil.
Defined.

(** ** relu: sign, support and dependence on the bias *)

(** Every entry of [relu x W b] is nonnegative; it is positive exactly
    when the product of the row with [x] exceeds the bias, and 0
    otherwise. *)
Theorem relu_support (x : vec) (W : matrix) (b : vec) (i : nat) :
  length b = nrows W -> (i < nrows W)%nat ->
  0 <= nth i (relu x W b) 0 /\
  (in_support (relu x W b) i <-> nth i b 0 < dot (nth i W []) x) /\
  (dot (nth i W []) x <= nth i b 0 -> nth i (relu x W b) 0 = 0).
Proof.
  intros Hb Hi. unfold in_support. rewrite relu_length by exact Hb.
  rewrite relu_nth by assumption. unfold Rmax.
  destruct (Rle_dec _ _); repeat split; intros; try lra; try tauto.
Qed.

Lemma relu_support_witness :
  0 <= nth 1 (relu [2; 1] [[1; 0]; [0; -1]] [1; 0]) 0 /\
  (in_support (relu [2; 1] [[1; 0]; [0; -1]] [1; 0]) 1 <->
   nth 1 [1; 0] 0 < dot (nth 1 [[1; 0]; [0; -1]] []) [2; 1]) /\
  (dot (nth 1 [[1; 0]; [0; -1]] []) [2; 1] <= nth 1 [1; 0] 0 ->
   nth 1 (relu [2; 1] [[1; 0]; [0; -1]] [1; 0]) 0 = 0).
Proof.
  apply (relu_support [2; 1] [[1; 0]; [0; -1]] [1; 0] 1).
  - reflexivity.
  - unfold nrows. simpl. lia.
Defined.

Lemma Forall2_nth_Rle (b b' : vec) (i : nat) :
  Forall2 Rle b b' -> nth i b 0 <= nth i b' 0.
Proof.
  intros H. revert i. induction H as [|c c' b b' Hc H IH]; intros [|i];
    simpl; auto; lra.
Qed.

(** Lowering the bias never shrinks the output: for [b <= b'] entry by
    entry, every entry of [relu x W b'] is at most the entry of
    [relu x W b], and every index in the support for [b'] is in the
    support for [b]. *)
Theorem relu_bias_monotone (x : vec) (W : matrix) (b b' : vec) (i : nat) :
  length b = nrows W -> length b' = nrows W ->
  Forall2 Rle b b' -> (i < nrows W)%nat ->
  nth i (relu x W b') 0 <= nth i (relu x W b) 0 /\
  (in_support (relu x W b') i -> in_support (relu x W b) i).
Proof.
  intros Hb Hb' Hle Hi. unfold in_support.
  rewrite !relu_length by assumption. rewrite !relu_nth by assumption.
  pose proof (Forall2_nth_Rle b b' i Hle) as Hbi.
  unfold Rmax. repeat destruct (Rle_dec _ _); split; intros; try lra;
    try (split; [tauto | lra]).
Qed.

Lemma relu_bias_monotone_witness :
  nth 0 (relu [2; 1] [[1; 0]; [0; -1]] [1; 0]) 0
  <= nth 0 (relu [2; 1] [[1; 0]; [0; -1]] [0; -3]) 0 /\
  (in_support (relu [2; 1] [[1; 0]; [0; -1]] [1; 0]) 0 ->
   in_support (relu [2; 1] [[1; 0]; [0; -1]] [0; -3]) 0).
Proof.
  apply (relu_bias_monotone [2; 1] [[1; 0]; [0; -1]] [0; -3] [1; 0] 0).
  - reflexivity.
  - reflexivity.
  - repeat (apply Forall2_cons; [lra |]). apply Forall2_nil.
  - unfold nrows. simpl. lia.
Defined.

(** ** pbe: when it refuses, what it needs, how the result scales *)

Section PbeFurther.

Context {lib : NumLib}.

Lemma is_omnidir_False_iff (W : matrix) :
  is_False (fst (is_omnidir W)) = true <->
  matrix_rank W = ncols W /\ message (omnidir_lp W) = infeasible_msg.
Proof.
  destruct (Nat.eq_dec (matrix_rank W) (ncols W)) as [Hrank | Hrank].
  - rewrite (is_omnidir_frame W Hrank).
    destruct (String.eqb (message (omnidir_lp W)) infeasible_msg) eqn:Hinf.
    + apply String.eqb_eq in Hinf. simpl. tauto.
    + apply String.eqb_neq in Hinf.
      destruct (String.eqb _ optimal_msg); [destruct (existsb _ _) |];
        simpl; split; try discriminate; tauto.
  - rewrite (is_omnidir_not_frame W Hrank). simpl.
    split; [discriminate | tauto].
Qed.

(** [pbe] answers that the frame is not omnidirectional exactly when [W]
    has full rank and [linprog] reports the infeasibility message; it
    then prints nothing and looks at neither the facets, the domain nor
    the radius. *)
Theorem pbe_refuses_iff (W : matrix) (facets : list (list nat))
  (K : String.string) (radius : R) :
  (fst (pbe W facets K radius) = Ret (Message not_omnidir_msg) <->
   matrix_rank W = ncols W /\ message (omnidir_lp W) = infeasible_msg) /\
  (fst (pbe W facets K radius) = Ret (Message not_omnidir_msg) ->
   snd (pbe W facets K radius) = []).
Proof.
  rewrite <- is_omnidir_False_iff.
  assert (Hfst : fst (pbe W facets K radius) = Ret (Message not_omnidir_msg)
                 <-> is_False (fst (is_omnidir W)) = true).
  { unfold pbe.
    destruct (is_omnidir W) as [omni out], (norm_row W) as [W_norm norm].
    cbn [fst]. destruct (is_False omni); cbn [fst]; [tauto |].
    split; [| discriminate].
    destruct (pbe_loop W_norm facets K (seq 0 (nrows W)) []) as [[l|s]|e] eqn:Hloop;
      cbn [bind]; try discriminate.
    - destruct (Req_dec_T radius 0); discriminate.
    - intros Heq. exfalso. injection Heq as ->.
      clear - Hloop. revert Hloop. generalize (@nil R) as acc.
      induction (seq 0 (nrows W)) as [|v verts IH]; intros acc; simpl;
        [discriminate |].
      destruct (vertex_min_corr W_norm facets v); simpl; [| discriminate].
      destruct (String.eqb K "sphere"); [apply IH |].
      destruct (String.eqb K "ball"); [apply IH | discriminate]. }
  split; [exact Hfst |].
  intros H. apply Hfst in H. apply is_omnidir_False_iff in H.
  destruct H as [Hrank Hmsg].
  unfold pbe. rewrite (is_omnidir_frame W Hrank), Hmsg. reflexivity.
Qed.

Lemma pbe_loop_unsupported (W_norm : matrix) (facets : list (list nat))
  (K : String.string) (v : nat) (verts : list nat) (acc : vec) :
  ~ supported K ->
  pbe_loop W_norm facets K (v :: verts) acc =
  match vertex_min_corr W_norm facets v with
  | Ret _ => Ret (inr unsupported_msg)
  | Raise e => Raise e
  end.
Proof.
  intros HK. simpl.
  destruct (vertex_min_corr W_norm facets v); simpl; [| reflexivity].
  destruct (String.eqb K "sphere") eqn:Hs.
  { apply String.eqb_eq in Hs. exfalso. apply HK. now left. }
  destruct (String.eqb K "ball") eqn:Hb.
  { apply String.eqb_eq in Hb. exfalso. apply HK. now right. }
  reflexivity.
Qed.

(** For a domain other than ['sphere'] and ['ball'], a frame with at
    least one row and a check that did not return [False]: [pbe] first
    computes [min_corr] for vertex 0, passes on its exception if it
    raises, and otherwise returns the message that the domain is not
    supported; no bias vector is returned and the radius is not used. *)
Theorem pbe_unsupported_domain (W : matrix) (facets : list (list nat))
  (K : String.string) (radius : R) :
  ~ supported K ->
  (0 < nrows W)%nat ->
  is_False (fst (is_omnidir W)) = false ->
  fst (pbe W facets K radius) =
  match vertex_min_corr (fst (norm_row W)) facets 0 with
  | Ret _ => Ret (Message unsupported_msg)
  | Raise e => Raise e
  end.
Proof.
  intros HK Hm Hom. unfold pbe.
  destruct (is_omnidir W) as [omni out], (norm_row W) as [W_norm norm].
  cbn [fst] in *. rewrite Hom. cbn [fst].
  destruct (nrows W) as [|m]; [lia |]. cbn [seq].
  rewrite (pbe_loop_unsupported _ _ _ _ _ _ HK).
  destruct (vertex_min_corr W_norm facets 0); reflexivity.
Qed.

Lemma Rmin_scale (a k : R) : 0 < k -> Rmin a 0 * k = Rmin (a * k) 0.
Proof.
  intros Hk. unfold Rmin.
  destruct (Rle_dec a 0), (Rle_dec (a * k) 0); nra.
Qed.

Lemma scale_bias_clamp (mcs norm : vec) (r : R) :
  0 < r -> Forall (fun n => 0 < n) norm ->
  scale_bias (map (domain_clamp "ball") mcs) norm r
  = map (fun a => Rmin a 0) (scale_bias (map (domain_clamp "sphere") mcs) norm r).
Proof.
  intros Hr Hnorm. unfold scale_bias. revert mcs.
  induction Hnorm as [|n norm Hn Hnorm IH]; intros [|mc mcs]; simpl; auto.
  rewrite IH. f_equal. unfold domain_clamp. simpl.
  rewrite <- !Rmin_scale by (now apply Rinv_0_lt_compat). reflexivity.
Qed.

(** The ball bias is the sphere bias cut off at 0: for nonzero rows and a
    positive radius, when [pbe] returns the vector [alpha] for the sphere
    it returns [min(alpha, 0)], entry by entry, for the ball. *)
Theorem pbe_ball_is_min_sphere_0 (W : matrix) (facets : list (list nat))
  (r : R) (alpha_sphere : vec) :
  0 < r ->
  Forall (fun row => norm2 row <> 0) W ->
  fst (pbe W facets "sphere" r) = Ret (Bias alpha_sphere) ->
  fst (pbe W facets "ball" r)
  = Ret (Bias (map (fun a => Rmin a 0) alpha_sphere)).
Proof.
  intros Hr Hrows Hsphere. apply pbe_bias_inv in Hsphere.
  destruct Hsphere as [Hom [Hr0 [mcs [Hall ->]]]].
  rewrite (pbe_bias_intro W facets "ball" r mcs); auto; [| now right].
  cbn [fst]. now rewrite scale_bias_clamp by (auto using norms_positive).
Qed.

Lemma scale_bias_radius (l norm : vec) (r : R) :
  scale_bias l norm r = map (fun a => a / r) (scale_bias l norm 1).
Proof.
  unfold scale_bias. rewrite map_map. apply map_ext. intros a.
  unfold Rdiv. rewrite Rinv_1. ring.
Qed.

(** The radius enters only in the last line. Whatever [pbe] does for
    radius 1 it does for every radius, except that a returned bias vector
    is divided by the radius, and that radius 0 turns a returned bias
    vector into a [ZeroDivisionError]. *)
Theorem pbe_radius (W : matrix) (facets : list (list nat))
  (K : String.string) (r : R) :
  fst (pbe W facets K r) =
  match fst (pbe W facets K 1) with
  | Ret (Bias alpha) =>
      if Req_dec_T r 0 then Raise ZeroDivisionError
      else Ret (Bias (map (fun a => a / r) alpha))
  | other => other
  end.
Proof.
  unfold pbe.
  destruct (is_omnidir W) as [omni out], (norm_row W) as [W_norm norm].
  destruct (is_False omni); cbn [fst]; [reflexivity |].
  destruct (pbe_loop W_norm facets K (seq 0 (nrows W)) []) as [[l|s]|e];
    cbn [bind]; try reflexivity.
  destruct (Req_dec_T 1 0) as [H10 | _]; [lra |].
  destruct (Req_dec_T r 0); [reflexivity |].
  now rewrite scale_bias_radius.
Qed.

End PbeFurther.

Lemma pbe_unsupported_domain_witness :
  fst (@pbe cross_lib cross cross_facets "cube" 2) =
  match @vertex_min_corr cross_lib (fst (norm_row cross)) cross_facets 0 with
  | Ret _ => Ret (Message unsupported_msg)
  | Raise e => Raise e
  end.
Proof.
  apply (@pbe_unsupported_domain cross_lib cross cross_facets "cube" 2).
  - intros [H | H]; discriminate H.
  - unfold nrows. simpl. lia.
  - now rewrite is_omnidir_cross.
Defined.

Lemma pbe_ball_is_min_sphere_0_witness :
  fst (@pbe tetr_lib tetr tetr_facets "ball" 1)
  = Ret (Bias (map (fun a => Rmin a 0)
                   [-1 / sqrt 3; -1 / sqrt 3; -1 / sqrt 3; -1 / sqrt 3])).
Proof.
  apply (@pbe_ball_is_min_sphere_0 tetr_lib tetr tetr_facets 1
           [-1 / sqrt 3; -1 / sqrt 3; -1 / sqrt 3; -1 / sqrt 3]).
  - lra.
  - repeat (apply Forall_cons; [apply norm2_nonzero; simpl; lra |]).
    apply Forall_nil.
  - rewrite pbe_tetr; [reflexivity | now left].
Defined.

(** ** pbe: what a successful run needs from the facet list *)

Section PbeNeeds.

Context {lib : NumLib}.

Lemma take_rows_ret_bounds {A : Type} (rows : list A) (idx : list nat) :
  forall taken, take_rows rows idx = Ret taken ->
  Forall (fun k => (k < length rows)%nat) idx.
Proof.
  induction idx as [|i idx IH]; intros taken H; simpl in H; [constructor |].
  destruct (nth_error rows i) as [r|] eqn:Hr; [| discriminate].
  destruct (take_rows rows idx) as [rest|e] eqn:Hrest; simpl in H;
    [| discriminate].
  constructor; [| now apply (IH rest)].
  apply nth_error_Some. congruence.
Qed.

(** The steps behind a value of [min_corr]. *)
Lemma vertex_min_corr_ret (W_norm : matrix) (facets : list (list nat))
  (v : nat) (mc : R) :
  vertex_min_corr W_norm facets v = Ret mc ->
  exists Wv Wnb p,
    nth_error W_norm v = Some Wv /\
    take_rows W_norm (neighbours facets v) = Ret Wnb /\
    Wnb <> [] /\
    np_min (vecmat Wv (transpose Wnb)) = Ret p /\
    (p < 0 -> alpha_S Wnb = Ret mc) /\
    (~ p < 0 -> mc = p).
Proof.
  unfold vertex_min_corr, row_at. destruct facets as [|f facets]; [discriminate |].
  destruct (nth_error W_norm v) as [Wv|]; [| discriminate]. cbn [bind].
  destruct (take_rows W_norm (neighbours (f :: facets) v)) as [Wnb|e];
    [| discriminate]. cbn [bind].
  destruct (np_min (vecmat Wv (transpose Wnb))) as [p|e] eqn:Hp;
    [| discriminate]. cbn [bind].
  intros H. exists Wv, Wnb, p. repeat split; auto.
  - intros ->. discriminate Hp.
  - intros Hneg. now rewrite (Rltb_true _ _ Hneg) in H.
  - intros Hpos. rewrite (Rltb_false _ _ Hpos) in H. congruence.
Qed.


End PbeNeeds.


(** ** The neighbourhood of a vertex *)

Lemma insert_unique_sorted (k : nat) (l : list nat) :
  StronglySorted lt l -> StronglySorted lt (insert_unique k l).
Proof.
  induction 1 as [|h t Hsorted IH Hall]; simpl.
  - repeat constructor.
  - destruct (k <? h)%nat eqn:Hlt.
    + apply Nat.ltb_lt in Hlt. constructor; [now constructor |].
      constructor; [exact Hlt |].
      eapply Forall_impl; [| exact Hall]. intros; lia.
    + apply Nat.ltb_ge in Hlt. destruct (k =? h)%nat eqn:Heq.
      * now constructor.
      * apply Nat.eqb_neq in Heq. constructor; [exact IH |].
        apply Forall_forall. intros j Hj. apply insert_unique_In in Hj.
        destruct Hj as [-> | Hj]; [lia |].
        rewrite Forall_forall in Hall. now apply Hall.
Qed.

(** The neighbourhood that [pbe] computes for a vertex lists, in
    increasing order and without repetition, exactly the vertices that
    share a facet with it; being a neighbour is symmetric, and a vertex
    is its own neighbour exactly when some facet contains it. *)
Theorem neighbours_spec (facets : list (list nat)) (v : nat) :
  StronglySorted lt (neighbours facets v) /\
  (forall j, In j (neighbours facets v) <->
             exists f, In f facets /\ In v f /\ In j f) /\
  (forall j, In j (neighbours facets v) <-> In v (neighbours facets j)) /\
  (In v (neighbours facets v) <-> exists f, In f facets /\ In v f).
Proof.
  split; [| split; [| split]].
  - unfold neighbours, np_unique.
    induction (concat (filter (mem_nat v) facets)) as [|k l IH]; simpl.
    + constructor.
    + now apply insert_unique_sorted.
  - intros j. apply neighbours_In.
  - intros j. rewrite !neighbours_In.
    split; intros [f [Hf [H1 H2]]]; eauto.
  - rewrite neighbours_In. split.
    + intros [f [Hf [H _]]]. eauto.
    + intros [f [Hf H]]. eauto.
Qed.

(** ** Bounds on the bias *)

Lemma cauchy_schwarz (u v : vec) :
  dot u v * dot u v <= dot u u * dot v v.
Proof.
  revert v. induction u as [|a u IH]; intros [|b v]; simpl; try lra.
  specialize (IH v).
  {
    pose proof (dot_self_nonneg u) as HA. pose proof (dot_self_nonneg v) as HB.
    set (s := dot u v) in *. set (A := dot u u) in *. set (B := dot v v) in *.
    assert (Hcross : 2 * (a * b) * s <= a * a * B + b * b * A).
    { assert (HP : 0 <= a * a * B + b * b * A) by nra.
      assert (Hsq : (2 * (a * b) * s) * (2 * (a * b) * s)
                    <= (a * a * B + b * b * A) * (a * a * B + b * b * A)).
      { assert (H1 : (a * b) * (a * b) * (s * s) <= (a * b) * (a * b) * (A * B)).
        { apply Rmult_le_compat_l; [nra | exact IH]. }
        pose proof (Rle_0_sqr (a * a * B - b * b * A)) as H2.
        unfold Rsqr in H2. nra. }
      nra. }
    nra. }
Qed.

Lemma dot_unit_bound (u v : vec) :
  dot u u = 1 -> dot v v <= 1 -> -1 <= dot u v <= 1.
Proof.
  intros Hu Hv. pose proof (cauchy_schwarz u v) as Hcs.
  pose proof (dot_self_nonneg v). rewrite Hu in Hcs. nra.
Qed.

Lemma dot_zeros_r (u : vec) {A : Type} (l : list A) :
  dot u (map (fun _ => 0) l) = 0.
Proof.
  revert l. induction u as [|a u IH]; intros [|k l]; simpl; auto.
  rewrite IH. ring.
Qed.

Lemma dot_nil_r (u : vec) : dot u [] = 0.
Proof. now destruct u. Qed.

Lemma dot_linear_r {A : Type} (u : vec) (f g : A -> R) (s : R) (l : list A) :
  dot u (map (fun k => f k * s + g k) l)
  = s * dot u (map f l) + dot u (map g l).
Proof.
  revert l. induction u as [|a u IH]; intros [|k l]; simpl; try ring.
  rewrite IH. ring.
Qed.

(** [(Fi . F^T) . c = Fi . (F^T c)] *)
Lemma dot_rows_columns (Fi : vec) (F : matrix) (n : nat) :
  rectangular n F ->
  forall c, dot Fi (map (fun k => dot (column F k) c) (seq 0 n))
            = dot (map (dot Fi) F) c.
Proof.
  induction 1 as [|Fj F Hlen Hrect IH]; intros c.
  - simpl. apply (dot_zeros_r Fi (seq 0 n)).
  - destruct c as [|cj c].
    + simpl. erewrite map_ext; [apply (dot_zeros_r Fi (seq 0 n)) |].
      intros k. reflexivity.
    + simpl. rewrite dot_linear_r, IH.
      rewrite <- Hlen, (map_seq_nth (fun a => a) 0 Fj), map_id. ring.
Qed.

Lemma alpha_S_objective (F : matrix) (Fi c : vec) (n : nat) :
  (0 < n)%nat -> rectangular n F -> F <> [] ->
  cp_objective (alpha_S_problem F Fi) c
  = dot Fi (matvec (cp_soc_matrix (alpha_S_problem F Fi)) c).
Proof.
  intros Hn Hrect Hne. unfold cp_objective, alpha_S_problem. cbn.
  rewrite (vecmat_transpose Fi F n) by assumption.
  assert (Hc : ncols F = n).
  { destruct F as [|row F]; [contradiction |]. now inversion Hrect. }
  unfold matvec, transpose. rewrite map_map, Hc.
  symmetry. now apply dot_rows_columns.
Qed.

Lemma zeros_feasible (F : matrix) (Fi : vec) :
  cp_feasible (alpha_S_problem F Fi) (repeat 0 (nrows F)) /\
  cp_objective (alpha_S_problem F Fi) (repeat 0 (nrows F)) = 0.
Proof.
  assert (Hz : forall (u : vec) m, dot u (repeat 0 m) = 0).
  { induction u as [|a u IH]; intros [|m]; simpl; auto. rewrite IH. ring. }
  unfold cp_feasible, cp_objective, alpha_S_problem. cbn.
  repeat split.
  - apply repeat_length.
  - unfold norm2, matvec.
    erewrite map_ext by (intros row; apply Hz).
    rewrite (dot_zeros_r _ (transpose F)), sqrt_0. lra.
  - induction (nrows F); simpl; constructor; auto; lra.
  - apply Hz.
Qed.

(** For a unit row, the optimal value of the conic problem lies between
    -1 and 0. *)
Lemma conic_value_bounds (F : matrix) (Fi : vec) (n : nat) (v : R) :
  (0 < n)%nat -> rectangular n F -> F <> [] -> dot Fi Fi = 1 ->
  cp_optimal_value (alpha_S_problem F Fi) v -> -1 <= v <= 0.
Proof.
  intros Hn Hrect Hne Hunit [[c [Hc Hv]] Hmin]. split.
  - rewrite <- Hv, (alpha_S_objective F Fi c n) by assumption.
    destruct Hc as [_ [Hnorm _]]. apply norm2_le_1 in Hnorm.
    now apply dot_unit_bound.
  - destruct (zeros_feasible F Fi) as [Hfeas Hobj].
    rewrite <- Hobj. now apply Hmin.
Qed.

Section BiasBounds.

Context {lib : NumLib}.

Lemma vertex_min_corr_bounded (W_norm : matrix) (facets : list (list nat))
  (v n : nat) (mc : R) :
  (0 < n)%nat -> rectangular n W_norm ->
  Forall (fun row => norm2 row = 1) W_norm ->
  solver_exact_at W_norm facets v ->
  vertex_min_corr W_norm facets v = Ret mc ->
  -1 <= mc <= 1.
Proof.
  intros Hn Hrect Hunit Hsolver Hmc.
  apply vertex_min_corr_ret in Hmc.
  destruct Hmc as [Wv [Wnb [p [Hv [Hnb [Hne [Hp [Hneg Hpos]]]]]]]].
  assert (Hdot : forall row, In row W_norm -> dot row row = 1).
  { intros row Hin. rewrite Forall_forall in Hunit.
    rewrite <- norm2_sqr, (Hunit row Hin). ring. }
  pose proof (take_rows_In _ _ _ Hnb) as [_ Hsub].
  rewrite Forall_forall in Hsub.
  assert (Hrect' : rectangular n Wnb).
  { unfold rectangular in *. rewrite Forall_forall in *.
    intros row Hrow. apply Hrect, Hsub, Hrow. }
  rewrite (vecmat_transpose Wv Wnb n) in Hp by assumption.
  apply np_min_minimum in Hp. destruct Hp as [Hin _].
  apply in_map_iff in Hin. destruct Hin as [Fj [Hpj HFj]].
  assert (Hpb : -1 <= p <= 1).
  { rewrite <- Hpj. apply dot_unit_bound.
    - apply Hdot. now apply nth_error_In in Hv.
    - rewrite (Hdot Fj) by (now apply Hsub). lra. }
  destruct (Rlt_dec p 0) as [Hlt | Hge].
  - specialize (Hneg Hlt). unfold alpha_S in Hneg.
    apply np_min_minimum in Hneg. destruct Hneg as [Hin _].
    apply in_map_iff in Hin. destruct Hin as [Fi [Hval HFi]].
    pose proof (conic_value_bounds Wnb Fi n mc Hn Hrect' Hne
                  (Hdot Fi (Hsub Fi HFi))) as Hb.
    rewrite <- Hval in Hb at 1. specialize (Hb (Hsolver Wnb Fi Hnb HFi)). lra.
  - rewrite (Hpos Hge). exact Hpb.
Qed.

Lemma norm_row_rectangular (W : matrix) (n : nat) :
  rectangular n W -> rectangular n (fst (norm_row W)).
Proof.
  unfold rectangular, norm_row. cbn [fst].
  induction 1 as [|row W Hrow H IH]; simpl; constructor; auto.
  now rewrite length_map.
Qed.

(** The bias never exceeds [1 / (|W[v]| r)] in size. For an [m] x [n]
    frame with nonzero rows, a positive radius and a conic solver that
    answers with optimal values: when [pbe] returns a bias vector, entry
    [v] lies between [-1 / (|W[v]| r)] and [1 / (|W[v]| r)]. *)
Theorem pbe_bias_bounded (W : matrix) (facets : list (list nat))
  (K : String.string) (r : R) (n : nat) (alpha : vec) :
  (0 < n)%nat -> rectangular n W ->
  Forall (fun row => norm2 row <> 0) W ->
  0 < r ->
  (forall v, (v < nrows W)%nat ->
             solver_exact_at (fst (norm_row W)) facets v) ->
  fst (pbe W facets K r) = Ret (Bias alpha) ->
  forall v, (v < nrows W)%nat ->
    Rabs (nth v alpha 0) <= 1 / (norm2 (nth v W []) * r).
Proof.
  intros Hn Hrect Hnz Hr Hsolver Hpbe v Hv.
  apply pbe_bias_inv in Hpbe. destruct Hpbe as [_ [_ [mcs [Hall ->]]]].
  pose proof (Forall2_length_seq _ _ _ Hall) as Hlen.
  destruct (norm_row_shape W) as [_ Hnorm].
  pose proof (Forall2_seq_nth _ 0 mcs 0 (nrows W) Hall v Hv) as Hmc.
  simpl in Hmc.
  apply (vertex_min_corr_bounded _ _ _ n) in Hmc;
    [| exact Hn | now apply norm_row_rectangular
     | now apply normalized_rows_unit | now apply Hsolver].
  rewrite scale_bias_nth by (rewrite ?length_map; lia).
  rewrite norm_row_norms by exact Hv.
  rewrite (nth_indep _ 0 (domain_clamp K 0)) by (rewrite length_map; lia).
  rewrite (map_nth (domain_clamp K)).
  assert (Hpos : 0 < norm2 (nth v W [])).
  { pose proof (norm2_nonneg (nth v W [])).
    rewrite Forall_forall in Hnz.
    assert (norm2 (nth v W []) <> 0) by (apply Hnz, nth_In, Hv). lra. }
  assert (Hc : -1 <= domain_clamp K (nth v mcs 0) <= 1).
  { unfold domain_clamp. destruct (String.eqb K "ball"); [| exact Hmc].
    unfold Rmin. destruct (Rle_dec _ _); lra. }
  assert (Hd : 0 < norm2 (nth v W []) * r) by nra.
  unfold Rdiv. rewrite Rmult_assoc, <- Rinv_mult.
  apply Rabs_le. pose proof (Rinv_0_lt_compat _ Hd). nra.
Qed.

End BiasBounds.

Lemma rectangular_tetr : rectangular 3 tetr.
Proof. repeat (apply Forall_cons; [reflexivity |]). apply Forall_nil. Qed.

Lemma pbe_bias_bounded_witness :
  Rabs (nth 0 [-1 / sqrt 3; -1 / sqrt 3; -1 / sqrt 3; -1 / sqrt 3] 0)
  <= 1 / (norm2 (nth 0 tetr []) * 1).
Proof.
  apply (@pbe_bias_bounded tetr_lib tetr tetr_facets "sphere" 1 3
           [-1 / sqrt 3; -1 / sqrt 3; -1 / sqrt 3; -1 / sqrt 3]).
  - lia.
  - exact rectangular_tetr.
  - repeat (apply Forall_cons; [apply norm2_nonzero; simpl; lra |]).
    apply Forall_nil.
  - lra.
  - intros v Hv Wnb Fi Hnb HFi. rewrite norm_row_tetr in Hnb. cbn [fst] in Hnb.
    unfold nrows in Hv. simpl in Hv.
    do 4 (destruct v as [|v];
          [injection Hnb as <-; now apply tetr_optimal |]).
    lia.
  - rewrite pbe_tetr; [reflexivity | now left].
  - unfold nrows. simpl. lia.
Defined.

(** ** relu_inv: the choice of the facet and the support mode *)

Section ReluInvFurther.

Context {lib : NumLib}.

Lemma take_rows_out_of_range {A : Type} (rows : list A) (idx : list nat) :
  ~ Forall (fun k => (k < length rows)%nat) idx ->
  take_rows rows idx = Raise IndexError.
Proof.
  induction idx as [|k idx IH]; intros Hbad; simpl.
  - exfalso. apply Hbad. constructor.
  - destruct (nth_error rows k) as [r|] eqn:Hr; [| reflexivity].
    rewrite IH; [reflexivity |].
    intros Hall. apply Hbad. constructor; [| exact Hall].
    apply nth_error_Some. congruence.
Qed.

(** Where the loop of the facet mode stops. *)
Lemma facet_scan_total (I : list nat) (facets : list (list nat)) :
  facets <> [] ->
  forall s, exists i,
    facet_scan I facets s = Some (s + i)%nat /\
    (i < length facets)%nat /\
    (first_match I facets i \/
     (Forall (fun f => all_in f I = false) facets /\
      i = (length facets - 1)%nat)).
Proof.
  induction facets as [|f facets IH]; intros Hne s; [contradiction |].
  cbn [facet_scan]. destruct (all_in f I) eqn:Hf.
  - exists 0%nat. rewrite Nat.add_0_r. repeat split; [simpl; lia |].
    left. split; [exists f; auto | intros j g Hj; lia].
  - destruct facets as [|f' facets].
    + exists 0%nat. rewrite Nat.add_0_r. repeat split; [simpl; lia |].
      right. split; [now repeat constructor | reflexivity].
    + destruct (IH ltac:(discriminate) (S s)) as [i [Hscan [Hi Hcase]]].
      exists (S i). rewrite Hscan. split; [f_equal; lia |].
      split; [simpl in *; lia |].
      destruct Hcase as [[[g [Hg Hall]] Hbefore] | [Hnone ->]].
      * left. split; [exists g; auto |].
        intros j h Hj Hh. destruct j as [|j]; simpl in Hh.
        -- now injection Hh as <-.
        -- apply (Hbefore j h); [lia | exact Hh].
      * right. split; [now constructor | simpl; lia].
Qed.

(** In facet mode [relu_inv] raises [UnboundLocalError] on an empty facet
    list. On a list that is not empty it always settles on a facet of the
    list and prints it: the first facet with all vertices in the support
    or, when there is none, the last facet of the list. It then raises
    [IndexError] when a vertex of that facet is not an index of [W], [b]
    and [z], and otherwise returns what [lstsq] gives for the rows of
    that facet. *)
Theorem relu_inv_facet_choice (z : vec) (W : matrix) (b : vec)
  (facets : list (list nat)) :
  (facets = [] ->
   relu_inv z W b facets "facet" = (Raise UnboundLocalError, [])) /\
  (facets <> [] ->
   exists i f,
     nth_error facets i = Some f /\
     snd (relu_inv z W b facets "facet") = [FacetLine i f] /\
     ((Forall (in_support z) f /\
       forall j g, (j < i)%nat -> nth_error facets j = Some g ->
                   ~ Forall (in_support z) g) \/
      (Forall (fun g => ~ Forall (in_support z) g) facets /\
       i = (length facets - 1)%nat)) /\
     (Forall (fun k => (k < length W)%nat /\ (k < length b)%nat /\
                       (k < length z)%nat) f ->
      fst (relu_inv z W b facets "facet")
      = Ret (lstsq (facet_rows W f) (facet_rhs z b f))) /\
     (~ Forall (fun k => (k < length W)%nat /\ (k < length b)%nat /\
                         (k < length z)%nat) f ->
      fst (relu_inv z W b facets "facet") = Raise IndexError)).
Proof.
  split; [intros ->; reflexivity |].
  intros Hne.
  destruct (facet_scan_total (where_pos z 0) facets Hne 0%nat)
    as [i [Hscan [Hi Hcase]]].
  simpl in Hscan.
  destruct (nth_error facets i) as [f|] eqn:Hf;
    [| apply nth_error_None in Hf; lia].
  exists i, f.
  assert (Hrun : relu_inv z W b facets "facet"
                 = (W_f <- take_rows W f ;;
                    b_f <- take_rows b f ;;
                    z_f <- take_rows z f ;;
                    Ret (lstsq W_f (vadd z_f b_f)), [FacetLine i f])).
  { unfold relu_inv.
    replace (String.eqb "facet" "facet") with true by reflexivity.
    now rewrite Hscan, Hf. }
  rewrite Hrun. cbn [fst snd].
  split; [exact Hf |]. split; [reflexivity |]. split; [| split].
  - destruct Hcase as [[[g [Hg Hall]] Hbefore] | [Hnone ->]].
    + left. rewrite Hf in Hg. injection Hg as <-.
      split; [now apply all_in_support |].
      intros j h Hj Hh Hact. apply all_in_support in Hact.
      rewrite (Hbefore j h Hj Hh) in Hact. discriminate.
    + right. split; [| reflexivity].
      eapply Forall_impl; [| exact Hnone]. intros g Hg Hact.
      apply all_in_support in Hact. congruence.
  - intros Hok.
    rewrite (take_rows_map [] W), (take_rows_map 0 b), (take_rows_map 0 z);
      try (eapply Forall_impl; [| exact Hok]; simpl; intros; tauto).
    cbn [bind]. unfold vadd. now rewrite zipWith_map.
  - intros Hbad.
    destruct (Forall_dec (fun k => (k < length W)%nat)
                (fun k => lt_dec k (length W)) f) as [HW | HW];
      [| now rewrite (take_rows_out_of_range W f HW)].
    rewrite (take_rows_map [] W) by exact HW. cbn [bind].
    destruct (Forall_dec (fun k => (k < length b)%nat)
                (fun k => lt_dec k (length b)) f) as [Hb | Hb];
      [| now rewrite (take_rows_out_of_range b f Hb)].
    rewrite (take_rows_map 0 b) by exact Hb. cbn [bind].
    rewrite (take_rows_out_of_range z f); [reflexivity |].
    intros Hz. apply Hbad. rewrite Forall_forall in *. auto.
Qed.

(** In any mode other than ['facet'] the facet list is not looked at and
    nothing is printed: the index set is the whole support of [z]. *)
Lemma relu_inv_support_mode (z : vec) (W : matrix) (b : vec)
  (facets : list (list nat)) (mode : String.string) :
  mode <> "facet"%string ->
  length W = length z -> length b = length z ->
  relu_inv z W b facets mode
  = (Ret (lstsq (facet_rows W (where_pos z 0))
                (facet_rhs z b (where_pos z 0))), []).
Proof.
  intros Hmode HW Hb. unfold relu_inv.
  apply String.eqb_neq in Hmode. rewrite Hmode.
  assert (Hidx : Forall (fun k => (k < length z)%nat) (where_pos z 0)).
  { apply Forall_forall. intros k Hk. apply where_pos_In in Hk.
    rewrite Nat.sub_0_r in Hk. apply Hk. }
  rewrite (take_rows_map [] W), (take_rows_map 0 b), (take_rows_map 0 z);
    try (eapply Forall_impl; [| exact Hidx]; simpl; intros; lia).
  cbn [bind]. unfold vadd. now rewrite zipWith_map.
Qed.

(** The round trip on the whole support, over the reals. In a mode
    other than ['facet'], if the rows of [W] at the support of
    [z = relu x W b] determine [x] and [lstsq] answers with a
    least-squares solution of the length of [x], then [relu_inv] returns
    [x] itself and prints nothing, whatever the facet list is. (Only
    this direction: [x] can also come back when the rows do not
    determine it.) *)
Theorem relu_inv_support_roundtrip (x : vec) (W : matrix) (b : vec)
  (facets : list (list nat)) (mode : String.string) :
  mode <> "facet"%string ->
  length b = nrows W ->
  (forall x', length x' = length x ->
              matvec (facet_rows W (where_pos (relu x W b) 0)) x'
              = matvec (facet_rows W (where_pos (relu x W b) 0)) x ->
              x' = x) ->
  length (lstsq (facet_rows W (where_pos (relu x W b) 0))
                (facet_rhs (relu x W b) b (where_pos (relu x W b) 0)))
  = length x ->
  least_squares (facet_rows W (where_pos (relu x W b) 0))
    (facet_rhs (relu x W b) b (where_pos (relu x W b) 0))
    (lstsq (facet_rows W (where_pos (relu x W b) 0))
           (facet_rhs (relu x W b) b (where_pos (relu x W b) 0))) ->
  relu_inv (relu x W b) W b facets mode = (Ret x, []).
Proof.
  intros Hmode Hb Hinj Hlen Hls.
  pose proof (relu_length x W b Hb) as Hz.
  assert (HWz : length W = length (relu x W b)) by (symmetry; exact Hz).
  assert (Hbz : length b = length (relu x W b)).
  { transitivity (nrows W); [exact Hb | symmetry; exact Hz]. }
  rewrite (relu_inv_support_mode _ _ _ _ _ Hmode HWz Hbz).
  assert (Hact : Forall (in_support (relu x W b)) (where_pos (relu x W b) 0)).
  { apply Forall_forall. intros k Hk. apply where_pos_In in Hk.
    rewrite Nat.sub_0_r in Hk. apply Hk. }
  rewrite facet_rhs_relu in * by assumption.
  apply least_squares_exact in Hls. apply Hinj in Hls; [| exact Hlen].
  now rewrite Hls.
Qed.

End ReluInvFurther.

Lemma where_pos_cross_north_east :
  where_pos [3 / 5; 4 / 5; 0; 0] 0 = [0; 1]%nat.
Proof. cbn. Rltb_eval. reflexivity. Qed.

Lemma relu_inv_support_roundtrip_witness :
  @relu_inv cross_lib (relu [3 / 5; 4 / 5] cross [0; 0; 0; 0]) cross
    [0; 0; 0; 0] [] "support" = (Ret [3 / 5; 4 / 5], []).
Proof.
  apply (@relu_inv_support_roundtrip cross_lib [3 / 5; 4 / 5] cross
           [0; 0; 0; 0] [] "support").
  - discriminate.
  - reflexivity.
  - rewrite relu_cross_north_east, where_pos_cross_north_east.
    intros x' Hlen Heq.
    destruct x' as [|a [|b [|c x']]]; try discriminate.
    cbn in Heq. injection Heq as Ha Hb. f_equal; [| f_equal]; lra.
  - rewrite relu_cross_north_east, where_pos_cross_north_east. reflexivity.
  - rewrite relu_cross_north_east, where_pos_cross_north_east.
    unfold facet_rows, facet_rhs, cross. cbn [map nth lstsq cross_lib answers].
    rewrite solve2_identity. apply least_squares_identity.
Defined.

(** ** zcosz and zcosz_inv *)

Lemma zcosz_length (x : vec) (W : matrix) (b : vec) :
  length b = nrows W -> length (zcosz x W b) = nrows W.
Proof.
  intros Hb. unfold zcosz, vsub.
  assert (HW : length (matvec W x) = nrows W).
  { unfold matvec, nrows. apply length_map. }
  rewrite length_map, zipWith_length; congruence.
Qed.

Lemma zcosz_nth (x : vec) (W : matrix) (b : vec) (i : nat) :
  length b = nrows W -> (i < nrows W)%nat ->
  nth i (zcosz x W b) 0
  = (dot (nth i W []) x - nth i b 0) * cos (dot (nth i W []) x - nth i b 0).
Proof.
  intros Hb Hi. pose proof (zcosz_length x W b Hb) as Hlen.
  unfold zcosz, vsub in *.
  assert (HW : length (matvec W x) = nrows W).
  { unfold matvec, nrows. apply length_map. }
  rewrite length_map in Hlen.
  rewrite (nth_indep _ 0 ((fun zi => zi * cos zi) 0)) by (rewrite length_map; lia).
  rewrite (map_nth (fun zi => zi * cos zi)).
  rewrite (zipWith_nth _ 0 0 0) by lia.
  now rewrite matvec_nth by exact Hi.
Qed.

(** An entry of [zcosz x W b] is never larger in size than the entry of
    [W x - b] it comes from, and it is 0 exactly when that entry is 0 or
    its cosine is 0: the layer can vanish where [W x] differs from [b]. *)
Theorem zcosz_entry (x : vec) (W : matrix) (b : vec) (i : nat) :
  length b = nrows W -> (i < nrows W)%nat ->
  Rabs (nth i (zcosz x W b) 0) <= Rabs (dot (nth i W []) x - nth i b 0) /\
  (nth i (zcosz x W b) 0 = 0 <->
   dot (nth i W []) x - nth i b 0 = 0 \/
   cos (dot (nth i W []) x - nth i b 0) = 0).
Proof.
  intros Hb Hi. rewrite zcosz_nth by assumption.
  set (u := dot (nth i W []) x - nth i b 0). split.
  - rewrite Rabs_mult. pose proof (COS_bound u) as [Hlo Hhi].
    assert (Hc : Rabs (cos u) <= 1) by (apply Rabs_le; lra).
    pose proof (Rabs_pos u). nra.
  - split.
    + apply Rmult_integral.
    + intros [-> | ->]; ring.
Qed.

Lemma zcosz_entry_witness :
  Rabs (nth 0 (zcosz [2; 1] [[1; 0]; [0; -1]] [1; 0]) 0)
  <= Rabs (dot (nth 0 [[1; 0]; [0; -1]] []) [2; 1] - nth 0 [1; 0] 0) /\
  (nth 0 (zcosz [2; 1] [[1; 0]; [0; -1]] [1; 0]) 0 = 0 <->
   dot (nth 0 [[1; 0]; [0; -1]] []) [2; 1] - nth 0 [1; 0] 0 = 0 \/
   cos (dot (nth 0 [[1; 0]; [0; -1]] []) [2; 1] - nth 0 [1; 0] 0) = 0).
Proof.
  apply (zcosz_entry [2; 1] [[1; 0]; [0; -1]] [1; 0] 0).
  - reflexivity.
  - unfold nrows. simpl. lia.
Defined.

Section ZcoszInv.

Context {lib : NumLib}.

Lemma where_nonzero_In (z : vec) :
  forall s k, In k (where_nonzero z s) <->
              (s <= k)%nat /\ in_nonzero_support z (k - s).
Proof.
  unfold in_nonzero_support.
  induction z as [|a z IH]; intros s k; simpl.
  - split; [contradiction | intros [_ [H _]]; lia].
  - destruct (Req_dec_T a 0) as [Ha | Ha]; simpl; rewrite IH.
    + split.
      * intros [Hle [Hlt Hnz]].
        replace (k - s)%nat with (S (k - S s)) by lia.
        repeat split; auto; lia.
      * intros [Hle [Hlt Hnz]].
        destruct (Nat.eq_dec s k) as [-> | Hne].
        -- rewrite Nat.sub_diag in Hnz. contradiction.
        -- replace (k - s)%nat with (S (k - S s)) in Hnz, Hlt by lia.
           repeat split; auto; lia.
    + split.
      * intros [<- | [Hle [Hlt Hnz]]].
        -- rewrite Nat.sub_diag. repeat split; auto; lia.
        -- replace (k - s)%nat with (S (k - S s)) by lia.
           repeat split; auto; lia.
      * intros [Hle [Hlt Hnz]].
        destruct (Nat.eq_dec s k) as [-> | Hne]; [now left | right].
        replace (k - s)%nat with (S (k - S s)) in Hnz, Hlt by lia.
        repeat split; auto; lia.
Qed.

Lemma all_in_nonzero (z : vec) (f : list nat) :
  all_in f (where_nonzero z 0) = true <-> Forall (in_nonzero_support z) f.
Proof.
  unfold all_in. rewrite forallb_forall, Forall_forall.
  split; intros H k Hk.
  - specialize (H k Hk). apply mem_nat_In, where_nonzero_In in H.
    rewrite Nat.sub_0_r in H. tauto.
  - apply mem_nat_In, where_nonzero_In. rewrite Nat.sub_0_r.
    split; [lia | now apply H].
Qed.

Lemma zcosz_inv_at (z : vec) (W : matrix) (b : vec)
  (facets : list (list nat)) (i : nat) (f_ind : list nat) :
  length W = length z -> length b = length z ->
  facet_scan (where_nonzero z 0) facets 0 = Some i ->
  nth_error facets i = Some f_ind ->
  Forall (fun k => (k < length z)%nat) f_ind ->
  zcosz_inv z W b facets "facet"
  = (Ret (lstsq (facet_rows W f_ind) (zcosz_rhs z b f_ind)),
     [FacetLine i f_ind]).
Proof.
  intros HW Hb Hscan Hnth Hidx. unfold zcosz_inv.
  replace (String.eqb "facet" "facet") with true by reflexivity.
  rewrite Hscan, Hnth.
  rewrite (take_rows_map [] W), (take_rows_map 0 b), (take_rows_map 0 z);
    try (eapply Forall_impl; [| exact Hidx]; simpl; intros; lia).
  cbn [bind]. unfold vadd, zcosz_rhs, facet_rows.
  rewrite map_map, zipWith_map. reflexivity.
Qed.

(** [zcosz_inv] has the loop of [relu_inv]: when no facet of a list that
    is not empty has all its vertices among the nonzero entries of [z],
    it reports the last facet of the list and reconstructs from it. *)
Theorem zcosz_inv_uses_last_facet (z : vec) (W : matrix) (b : vec)
  (facets : list (list nat)) (f_last : list nat) :
  length W = length z -> length b = length z ->
  Forall (fun f => ~ Forall (in_nonzero_support z) f) facets ->
  nth_error facets (length facets - 1) = Some f_last ->
  Forall (fun k => (k < length z)%nat) f_last ->
  zcosz_inv z W b facets "facet"
  = (Ret (lstsq (facet_rows W f_last) (zcosz_rhs z b f_last)),
     [FacetLine (length facets - 1) f_last]).
Proof.
  intros HW Hb Hnone Hlast Hidx.
  apply zcosz_inv_at; auto.
  rewrite (facet_scan_none _ _ 0%nat); [reflexivity | |].
  - intros ->. discriminate.
  - eapply Forall_impl; [| exact Hnone]. intros f Hf.
    destruct (all_in f (where_nonzero z 0)) eqn:Hall; [| reflexivity].
    apply all_in_nonzero in Hall. contradiction.
Qed.

(** [zcosz_inv] applies [z cos z] to the output of [zcosz] once more
    before solving. When facet [i] is the first facet whose vertices all
    have a nonzero entry in [y = zcosz x W b], its rows determine [x] and
    [lstsq] solves the system it is given, the vector returned is [x]
    exactly when [y[k] cos y[k] = (W x - b)[k]] at every vertex [k] of
    the facet. *)
Theorem zcosz_inv_exact_iff (x : vec) (W : matrix) (b : vec)
  (facets : list (list nat)) (i : nat) (f_ind : list nat) :
  length b = nrows W ->
  nth_error facets i = Some f_ind ->
  Forall (in_nonzero_support (zcosz x W b)) f_ind ->
  (forall j f, (j < i)%nat -> nth_error facets j = Some f ->
               ~ Forall (in_nonzero_support (zcosz x W b)) f) ->
  (forall x', length x' = length x ->
              matvec (facet_rows W f_ind) x' = matvec (facet_rows W f_ind) x ->
              x' = x) ->
  length (lstsq (facet_rows W f_ind) (zcosz_rhs (zcosz x W b) b f_ind))
  = length x ->
  matvec (facet_rows W f_ind)
         (lstsq (facet_rows W f_ind) (zcosz_rhs (zcosz x W b) b f_ind))
  = zcosz_rhs (zcosz x W b) b f_ind ->
  exists x_hat,
    zcosz_inv (zcosz x W b) W b facets "facet"
    = (Ret x_hat, [FacetLine i f_ind]) /\
    (x_hat = x <->
     forall k, In k f_ind ->
       nth k (zcosz x W b) 0 * cos (nth k (zcosz x W b) 0)
       = dot (nth k W []) x - nth k b 0).
Proof.
  intros Hb Hnth Hact Hbefore Hinj Hlen Hsolves.
  pose proof (zcosz_length x W b Hb) as Hz.
  assert (HWz : length W = length (zcosz x W b)) by (symmetry; exact Hz).
  assert (Hbz : length b = length (zcosz x W b)).
  { transitivity (nrows W); [exact Hb | symmetry; exact Hz]. }
  assert (Hscan : facet_scan (where_nonzero (zcosz x W b) 0) facets 0 = Some i).
  { apply (facet_scan_first _ _ i 0%nat). split.
    - exists f_ind. split; [exact Hnth | now apply all_in_nonzero].
    - intros j f Hj Hf. specialize (Hbefore j f Hj Hf).
      destruct (all_in f (where_nonzero (zcosz x W b) 0)) eqn:Hall;
        [| reflexivity].
      apply all_in_nonzero in Hall. contradiction. }
  eexists. split.
  - apply zcosz_inv_at; auto.
    eapply Forall_impl; [| exact Hact]. now intros k [Hk _].
  - assert (Hrows : matvec (facet_rows W f_ind) x
                    = map (fun k => dot (nth k W []) x) f_ind).
    { unfold matvec, facet_rows. now rewrite map_map. }
    split.
    + intros Heq k Hk. rewrite Heq, Hrows in Hsolves.
      unfold zcosz_rhs in Hsolves.
      assert (Hk' := proj1 map_ext_in_iff Hsolves k Hk).
      simpl in Hk'. lra.
    + intros Hcond. apply Hinj; [exact Hlen |].
      rewrite Hsolves, Hrows. unfold zcosz_rhs.
      apply map_ext_in. intros k Hk. rewrite (Hcond k Hk). ring.
Qed.

End ZcoszInv.

Lemma where_nonzero_cross_east : where_nonzero [1; 0; 0; 0] 0 = [0%nat].
Proof.
  cbn. repeat (destruct (Req_dec_T _ _); try lra). reflexivity.
Qed.

Lemma zcosz_inv_uses_last_facet_witness :
  @zcosz_inv cross_lib [1; 0; 0; 0] cross [0; 0; 0; 0] cross_facets "facet"
  = (Ret (@lstsq cross_lib (facet_rows cross [1; 2]%nat)
            (zcosz_rhs [1; 0; 0; 0] [0; 0; 0; 0] [1; 2]%nat)),
     [FacetLine (length cross_facets - 1) [1; 2]%nat]).
Proof.
  apply (@zcosz_inv_uses_last_facet cross_lib [1; 0; 0; 0] cross [0; 0; 0; 0]
           cross_facets [1; 2]%nat).
  - reflexivity.
  - reflexivity.
  - assert (H : forall f, all_in f (where_nonzero [1; 0; 0; 0] 0) = false ->
                          ~ Forall (in_nonzero_support [1; 0; 0; 0]) f).
    { intros f Hf Hact. apply all_in_nonzero in Hact. congruence. }
    rewrite where_nonzero_cross_east in H.
    repeat (apply Forall_cons; [apply H; reflexivity |]). apply Forall_nil.
  - reflexivity.
  - repeat (apply Forall_cons; [simpl; lia |]). apply Forall_nil.
Defined.

Lemma zcosz_eye2_pi : zcosz [PI; PI] eye2 [0; 0] = [- PI; - PI].
Proof.
  unfold zcosz, eye2. cbn.
  replace (1 * PI + (0 * PI + 0) - 0) with PI by lra.
  replace (0 * PI + (1 * PI + 0) - 0) with PI by lra.
  rewrite cos_PI. vec_eq.
Qed.

Lemma zcosz_inv_exact_iff_witness :
  exists x_hat,
    @zcosz_inv cross_lib (zcosz [PI; PI] eye2 [0; 0]) eye2 [0; 0]
      [[0; 1]%nat] "facet"
    = (Ret x_hat, [FacetLine 0 [0; 1]%nat]) /\
    (x_hat = [PI; PI] <->
     forall k, In k [0; 1]%nat ->
       nth k (zcosz [PI; PI] eye2 [0; 0]) 0
       * cos (nth k (zcosz [PI; PI] eye2 [0; 0]) 0)
       = dot (nth k eye2 []) [PI; PI] - nth k [0; 0] 0).
Proof.
  apply (@zcosz_inv_exact_iff cross_lib [PI; PI] eye2 [0; 0]
           [[0; 1]%nat] 0 [0; 1]%nat).
  - reflexivity.
  - reflexivity.
  - rewrite zcosz_eye2_pi. pose proof PI_RGT_0.
    repeat (apply Forall_cons; [split; simpl; [lia | lra] |]).
    apply Forall_nil.
  - intros j f Hj. lia.
  - intros x' Hlen Heq.
    destruct x' as [|a [|b [|c x']]]; try discriminate.
    unfold eye2 in Heq. cbn in Heq. injection Heq as Ha Hb.
    f_equal; [| f_equal]; lra.
  - rewrite zcosz_eye2_pi. reflexivity.
  - rewrite zcosz_eye2_pi.
    unfold facet_rows, zcosz_rhs, eye2. cbn [map nth lstsq cross_lib answers].
    rewrite solve2_identity. cbn. vec_eq.
Defined.

(** ** fb_ana: shape and rows of the analysis matrix *)

Lemma stride_from_nth {A : Type} (d : A) (a : nat) (l : list A) :
  (0 < a)%nat ->
  forall s k, nth k (stride_from a s l) d = nth (s + k * a) l d.
Proof.
  intros Ha. induction l as [|x t IH]; intros s k.
  - simpl. now destruct k, (s + _)%nat.
  - destruct s as [|s]; cbn [stride_from].
    + destruct k as [|k]; [reflexivity |]. cbn [nth].
      rewrite IH. replace (0 + S k * a)%nat with (S (a - 1 + k * a)) by lia.
      reflexivity.
    + rewrite IH. reflexivity.
Qed.

Lemma stride_from_length {A : Type} (a : nat) (l : list A) :
  (0 < a)%nat ->
  forall s, length (stride_from a s l) = ((length l + a - 1 - s) / a)%nat.
Proof.
  intros Ha. induction l as [|x t IH]; intros s.
  - simpl. symmetry. apply Nat.div_small. lia.
  - destruct s as [|s]; cbn [stride_from length].
    + rewrite IH.
      replace (S (length t) + a - 1 - 0)%nat with (length t + 1 * a)%nat by lia.
      rewrite Nat.div_add by lia.
      replace (length t + a - 1 - (a - 1))%nat with (length t) by lia. lia.
    + rewrite IH. f_equal. lia.
Qed.

Lemma stride_from_In {A : Type} (a : nat) (l : list A) (x : A) :
  forall s, In x (stride_from a s l) -> In x l.
Proof.
  induction l as [|y t IH]; intros s H; [contradiction |].
  destruct s as [|s]; cbn [stride_from] in H.
  - destruct H as [-> | H]; [now left | right; eauto].
  - right. eauto.
Qed.

Lemma stride_length_divisor {A : Type} (a : nat) (l : list A) :
  (0 < a)%nat -> (length l mod a = 0)%nat ->
  length (stride a l) = (length l / a)%nat.
Proof.
  intros Ha Hdiv. unfold stride. rewrite stride_from_length by exact Ha.
  apply Nat.Div0.div_exact in Hdiv.
  rewrite Hdiv at 1.
  replace (a * (length l / a) + a - 1 - 0)%nat
    with ((a - 1) + (length l / a) * a)%nat by lia.
  rewrite Nat.div_add by lia. rewrite Nat.div_small by lia. lia.
Qed.

(** Row [i] of the transposed circulant matrix is [c] rotated to the
    right by [i] places. *)
Lemma rotr_nth {A : Type} (d : A) (l : list A) (i j : nat) :
  (i < length l)%nat -> (j < length l)%nat ->
  nth j (rotr i l) d = nth ((j + length l - i) mod length l) l d.
Proof.
  intros Hi Hj. unfold rotr.
  destruct (Nat.lt_ge_cases j i) as [Hlt | Hge].
  - rewrite app_nth1 by (rewrite length_skipn; lia).
    rewrite nth_skipn. rewrite Nat.mod_small by lia. f_equal. lia.
  - rewrite app_nth2 by (rewrite length_skipn; lia).
    rewrite length_skipn, nth_firstn.
    replace (j - (length l - (length l - i)))%nat with (j - i)%nat by lia.
    destruct (j - i <? length l - i)%nat eqn:Hlt;
      [| apply Nat.ltb_ge in Hlt; lia].
    replace (j + length l - i)%nat with ((j - i) + 1 * length l)%nat by lia.
    rewrite Nat.Div0.mod_add. now rewrite Nat.mod_small by lia.
Qed.

Lemma rotr_length {A : Type} (s : nat) (l : list A) :
  length (rotr s l) = length l.
Proof.
  unfold rotr. rewrite length_app, length_skipn, length_firstn. lia.
Qed.

Lemma rotr_permutation {A : Type} (s : nat) (l : list A) :
  Permutation (rotr s l) l.
Proof.
  unfold rotr. rewrite Permutation_app_comm. now rewrite firstn_skipn.
Qed.

Lemma dot_self_permutation (l l' : vec) :
  Permutation l l' -> dot l l = dot l' l'.
Proof.
  induction 1; simpl; lra.
Qed.

Lemma circulant_shape (c : vec) :
  length (circulant c) = length c /\ rectangular (length c) (circulant c).
Proof.
  unfold circulant, rectangular. split.
  - now rewrite length_map, length_seq.
  - apply Forall_forall. intros row Hrow. apply in_map_iff in Hrow.
    destruct Hrow as [i [<- _]]. now rewrite length_map, length_seq.
Qed.

Lemma transpose_circulant (c : vec) :
  transpose (circulant c) = map (fun i => rotr i c) (seq 0 (length c)).
Proof.
  destruct (circulant_shape c) as [Hlen Hrect].
  destruct c as [|c0 c]; [reflexivity |].
  set (l := c0 :: c) in *.
  assert (Hc : ncols (circulant l) = length l).
  { unfold circulant. subst l. cbn [length seq map ncols].
    now rewrite length_map, length_seq. }
  unfold transpose. rewrite Hc. apply map_ext_in. intros i Hi.
  apply in_seq in Hi. destruct Hi as [_ Hi]. simpl in Hi.
  apply (nth_ext _ _ 0 0).
  - unfold column. now rewrite length_map, rotr_length.
  - intros j Hj. unfold column in *. rewrite length_map, Hlen in Hj.
    rewrite rotr_nth by assumption.
    rewrite (nth_indep _ 0 ((fun row => nth i row 0) []))
      by (now rewrite length_map, Hlen).
    rewrite (map_nth (fun row => nth i row 0)).
    unfold circulant.
    rewrite (nth_indep _ [] ((fun i0 => map (fun j0 =>
               nth ((i0 + length l - j0) mod length l) l 0)
               (seq 0 (length l))) 0%nat))
      by (now rewrite length_map, length_seq).
    rewrite (map_nth (fun i0 => map (fun j0 =>
               nth ((i0 + length l - j0) mod length l) l 0)
               (seq 0 (length l)))).
    rewrite seq_nth by exact Hj. cbn [Nat.add].
    rewrite (nth_indep _ 0 ((fun j0 =>
               nth ((j + length l - j0) mod length l) l 0) 0%nat))
      by (now rewrite length_map, length_seq).
    rewrite (map_nth (fun j0 => nth ((j + length l - j0) mod length l) l 0)).
    now rewrite seq_nth by exact Hi.
Qed.

(** The block of one filter: the right rotations by 0, [a], [2 a], ... *)
Lemma fb_block_nth (a : nat) (c : vec) (k : nat) :
  (0 < a)%nat -> (k * a < length c)%nat ->
  nth k (stride a (transpose (circulant c))) [] = rotr (k * a) c.
Proof.
  intros Ha Hk. unfold stride. rewrite stride_from_nth by exact Ha.
  rewrite transpose_circulant. cbn [Nat.add].
  rewrite (nth_indep _ [] ((fun i => rotr i c) 0%nat))
    by (now rewrite length_map, length_seq).
  rewrite (map_nth (fun i => rotr i c)). now rewrite seq_nth.
Qed.

Lemma fb_block_length (a : nat) (c : vec) :
  (0 < a)%nat -> (length c mod a = 0)%nat ->
  length (stride a (transpose (circulant c))) = (length c / a)%nat.
Proof.
  intros Ha Hdiv.
  assert (Hlen : length (transpose (circulant c)) = length c).
  { now rewrite transpose_circulant, length_map, length_seq. }
  rewrite stride_length_divisor; [now rewrite Hlen | exact Ha | now rewrite Hlen].
Qed.

Lemma fb_block_In (a : nat) (c row : vec) :
  In row (stride a (transpose (circulant c))) ->
  exists i, (i < length c)%nat /\ row = rotr i c.
Proof.
  intros H. apply stride_from_In in H. rewrite transpose_circulant in H.
  apply in_map_iff in H. destruct H as [i [<- Hi]].
  apply in_seq in Hi. exists i. split; [lia | reflexivity].
Qed.

Lemma fb_ana_done (w : matrix) (a : nat) (M : matrix) :
  fb_ana w a = Done M ->
  (0 < a)%nat /\ (ncols w mod a = 0)%nat /\
  M = concat (map (fun wj => stride a (transpose (circulant wj))) w).
Proof.
  unfold fb_ana. destruct (a =? 0)%nat eqn:Ha; [discriminate |].
  apply Nat.eqb_neq in Ha.
  destruct (ncols w mod a =? 0)%nat eqn:Hdiv; simpl; [| discriminate].
  apply Nat.eqb_eq in Hdiv. intros H. injection H as <-.
  repeat split; auto. lia.
Qed.

Lemma concat_const_length {A : Type} (q : nat) (blocks : list (list A)) :
  Forall (fun bl => length bl = q) blocks ->
  length (concat blocks) = (length blocks * q)%nat.
Proof.
  induction 1 as [|bl blocks Hbl H IH]; simpl; [reflexivity |].
  rewrite length_app, IH, Hbl. lia.
Qed.

Lemma concat_const_nth {A : Type} (d : A) (q : nat) (blocks : list (list A)) :
  Forall (fun bl => length bl = q) blocks ->
  forall j k, (j < length blocks)%nat -> (k < q)%nat ->
  nth (j * q + k) (concat blocks) d = nth k (nth j blocks []) d.
Proof.
  induction 1 as [|bl blocks Hbl H IH]; intros j k Hj Hk; simpl in *; [lia |].
  destruct j as [|j].
  - simpl. now rewrite app_nth1 by lia.
  - rewrite app_nth2 by (rewrite Hbl; lia).
    replace (S j * q + k - length bl)%nat with (j * q + k)%nat
      by (rewrite Hbl; lia).
    apply IH; lia.
Qed.

Lemma ncols_rectangular (w : matrix) (N : nat) :
  rectangular N w -> w <> [] -> ncols w = N.
Proof.
  intros Hrect Hne. destruct w as [|row w]; [contradiction |].
  now inversion Hrect.
Qed.

Lemma fb_blocks_length (w : matrix) (a N : nat) :
  rectangular N w -> (0 < a)%nat -> (N mod a = 0)%nat ->
  Forall (fun bl => length bl = (N / a)%nat)
         (map (fun wj => stride a (transpose (circulant wj))) w).
Proof.
  intros Hrect Ha Hdiv. apply Forall_forall. intros bl Hbl.
  apply in_map_iff in Hbl. destruct Hbl as [wj [<- Hwj]].
  unfold rectangular in Hrect. rewrite Forall_forall in Hrect.
  specialize (Hrect wj Hwj).
  rewrite fb_block_length; [now rewrite Hrect | exact Ha | now rewrite Hrect].
Qed.

(** When [fb_ana] returns a matrix for [J] filters of length [N], the
    step [a] is positive and divides [N], the matrix has [J * (N / a)]
    rows of length [N], and row [j * (N / a) + k] is filter [j] rotated
    to the right by [k * a] places. *)
Theorem fb_ana_rows (w : matrix) (a N : nat) (M : matrix) :
  rectangular N w -> w <> [] ->
  fb_ana w a = Done M ->
  (0 < a)%nat /\ (N mod a = 0)%nat /\
  length M = (nrows w * (N / a))%nat /\
  rectangular N M /\
  forall j k, (j < nrows w)%nat -> (k < N / a)%nat ->
    nth (j * (N / a) + k) M [] = rotr (k * a) (nth j w []).
Proof.
  intros Hrect Hne Hdone. apply fb_ana_done in Hdone.
  destruct Hdone as [Ha [Hdiv ->]].
  rewrite (ncols_rectangular w N Hrect Hne) in Hdiv.
  pose proof (fb_blocks_length w a N Hrect Ha Hdiv) as Hblocks.
  unfold rectangular in Hrect. rewrite Forall_forall in Hrect.
  repeat split; auto.
  - rewrite (concat_const_length _ _ Hblocks). now rewrite length_map.
  - apply Forall_forall. intros row Hrow. apply in_concat in Hrow.
    destruct Hrow as [bl [Hbl Hrow]]. apply in_map_iff in Hbl.
    destruct Hbl as [wj [<- Hwj]]. apply fb_block_In in Hrow.
    destruct Hrow as [i [_ ->]]. rewrite rotr_length. now apply Hrect.
  - intros j k Hj Hk.
    rewrite (concat_const_nth [] _ _ Hblocks) by (rewrite ?length_map; auto).
    rewrite (nth_indep _ [] ((fun wj => stride a (transpose (circulant wj))) []))
      by (now rewrite length_map).
    rewrite (map_nth (fun wj => stride a (transpose (circulant wj)))).
    apply fb_block_nth; [exact Ha |].
    rewrite (Hrect (nth j w [])) by (now apply nth_In).
    apply Nat.Div0.div_exact in Hdiv. nia.
Qed.

Lemma norm2_rotr (s : nat) (c : vec) : norm2 (rotr s c) = norm2 c.
Proof.
  unfold norm2. f_equal. apply dot_self_permutation, rotr_permutation.
Qed.

Lemma fb_ana_row_In (w : matrix) (a : nat) (M : matrix) (row : vec) :
  fb_ana w a = Done M -> In row M ->
  exists wj i, In wj w /\ row = rotr i wj.
Proof.
  intros Hdone Hrow. apply fb_ana_done in Hdone. destruct Hdone as [_ [_ ->]].
  apply in_concat in Hrow.
  destruct Hrow as [bl [Hbl Hrow]]. apply in_map_iff in Hbl.
  destruct Hbl as [wj [<- Hwj]]. apply fb_block_In in Hrow.
  destruct Hrow as [i [_ ->]]. eauto.
Qed.

(** Every row of the analysis matrix is a rearrangement of one of the
    filters, so it has the Euclidean norm of that filter. *)
Theorem fb_ana_preserves_norm (w : matrix) (a : nat) (M : matrix) :
  fb_ana w a = Done M ->
  Forall (fun row => exists wj, In wj w /\ Permutation row wj /\
                                norm2 row = norm2 wj) M.
Proof.
  intros Hdone. apply Forall_forall. intros row Hrow.
  destruct (fb_ana_row_In w a M row Hdone Hrow) as [wj [i [Hwj ->]]].
  exists wj. repeat split;
    [exact Hwj | apply rotr_permutation | apply norm2_rotr].
Qed.

(** With the step equal to the filter length nothing is shifted: the
    analysis matrix is the matrix of the filters. *)
Theorem fb_ana_full_step (w : matrix) (N : nat) :
  (0 < N)%nat -> rectangular N w -> w <> [] ->
  fb_ana w N = Done w.
Proof.
  intros HN Hrect Hne. unfold fb_ana.
  rewrite (ncols_rectangular w N Hrect Hne).
  destruct (N =? 0)%nat eqn:H0; [apply Nat.eqb_eq in H0; lia |].
  rewrite Nat.Div0.mod_same. simpl. f_equal.
  clear Hne. induction Hrect as [|wj w Hlen Hrect IH]; simpl; [reflexivity |].
  rewrite IH. clear IH.
  assert (Hblock : stride N (transpose (circulant wj)) = [wj]).
  { apply (nth_ext _ _ [] []).
    - rewrite fb_block_length by (rewrite ?Hlen, ?Nat.Div0.mod_same; lia).
      rewrite Hlen, Nat.div_same by lia. reflexivity.
    - rewrite fb_block_length by (rewrite ?Hlen, ?Nat.Div0.mod_same; lia).
      rewrite Hlen, Nat.div_same by lia. intros k Hk.
      destruct k as [|k]; [| lia].
      rewrite fb_block_nth by lia. simpl. unfold rotr.
      rewrite Nat.sub_0_r, skipn_all, firstn_all. reflexivity. }
  now rewrite Hblock.
Qed.

Lemma fb_ana_ramp : fb_ana ramp 2 = Done ramp_ana.
Proof. reflexivity. Qed.

Lemma fb_ana_rows_witness :
  (0 < 2)%nat /\ (4 mod 2 = 0)%nat /\
  length ramp_ana = (nrows ramp * (4 / 2))%nat /\
  rectangular 4 ramp_ana /\
  forall j k, (j < nrows ramp)%nat -> (k < 4 / 2)%nat ->
    nth (j * (4 / 2) + k) ramp_ana [] = rotr (k * 2) (nth j ramp []).
Proof.
  apply (fb_ana_rows ramp 2 4 ramp_ana).
  - repeat (apply Forall_cons; [reflexivity |]). apply Forall_nil.
  - discriminate.
  - exact fb_ana_ramp.
Defined.

Lemma fb_ana_preserves_norm_witness :
  Forall (fun row => exists wj, In wj ramp /\ Permutation row wj /\
                                norm2 row = norm2 wj) ramp_ana.
Proof.
  apply (fb_ana_preserves_norm ramp 2). exact fb_ana_ramp.
Defined.

Lemma fb_ana_full_step_witness :
  fb_ana [[1; 2]; [3; 4]] 2 = Done [[1; 2]; [3; 4]].
Proof.
  apply (fb_ana_full_step [[1; 2]; [3; 4]] 2).
  - lia.
  - repeat (apply Forall_cons; [reflexivity |]). apply Forall_nil.
  - discriminate.
Defined.

(** ** randn_fb: what the flags do *)

Section RandnFb.

Context {rl : RandLib}.

Lemma divisor_checks (N a : nat) :
  (0 < a)%nat -> (N mod a = 0)%nat ->
  (a =? 0)%nat = false /\ negb (N mod a =? 0)%nat = false.
Proof.
  intros Ha Hdiv. split.
  - apply Nat.eqb_neq. lia.
  - rewrite Hdiv. reflexivity.
Qed.

(** With [norm] set and [scale] unset, [w] is read before it is bound:
    once the step has passed its check, [randn_fb] raises
    [UnboundLocalError] without a draw, whatever the other arguments. *)
Theorem randn_fb_norm_without_scale (s : rng) (N J : nat) (T : option nat)
  (analysis : bool) (a : nat) :
  (0 < a)%nat -> (N mod a = 0)%nat ->
  randn_fb s N J T false true analysis a
  = (Failed (Builtin UnboundLocalError), s).
Proof.
  intros Ha Hdiv. destruct (divisor_checks N a Ha Hdiv) as [H0 H1].
  unfold randn_fb. rewrite H0, H1. reflexivity.
Qed.

(** With [norm] unset the filters are a fresh draw and are never scaled:
    setting [scale] only uses up one draw before it. *)
Theorem randn_fb_scale_discarded (s : rng) (N J : nat) (T : option nat)
  (analysis : bool) (a : nat) :
  (0 < a)%nat -> (N mod a = 0)%nat ->
  randn_fb s N J T true false analysis a
  = randn_fb (snd (randn s J (match T with None => N | Some t => t end)))
             N J T false false analysis a.
Proof.
  intros Ha Hdiv. destruct (divisor_checks N a Ha Hdiv) as [H0 H1].
  unfold randn_fb. rewrite H0, H1.
  destruct (randn s J _) as [w s1]. reflexivity.
Qed.

Lemma map_map_scale (c : R) (w : matrix) :
  map (map (fun e => e / c)) w = scale_rows (repeat (/ c) (length w)) w.
Proof.
  unfold scale_rows. induction w as [|row w IH]; simpl; [reflexivity |].
  rewrite IH. f_equal. unfold vscale. apply map_ext. intros e.
  unfold Rdiv. ring.
Qed.

Lemma norm2_nil : norm2 [] = 0.
Proof. unfold norm2. simpl. apply sqrt_0. Qed.

(** The normalized filters do not depend on the scaling by
    [sqrt (T J)]. *)
Lemma norm_row_scaled_draw (w : matrix) (T J : nat) :
  length w = J -> rectangular T w ->
  Forall (fun row => norm2 row <> 0) w ->
  fst (norm_row (map (map (fun e => e / sqrt (INR (T * J)))) w))
  = fst (norm_row w).
Proof.
  intros Hlen Hrect Hnz. destruct w as [|row w]; [reflexivity |].
  assert (HT : (0 < T)%nat).
  { inversion Hrect as [|? ? Hrow _]; subst.
    inversion Hnz as [|? ? Hn _]; subst.
    destruct row; [exfalso; apply Hn, norm2_nil | simpl; lia]. }
  assert (HJ : (0 < J)%nat) by (simpl in Hlen; lia).
  assert (Hc : 0 < sqrt (INR (T * J))).
  { apply sqrt_lt_R0. apply lt_0_INR. nia. }
  rewrite map_map_scale.
  apply (norm_row_scale_aux (repeat (/ sqrt (INR (T * J))) (length (row :: w)))
           (row :: w)).
  - apply repeat_length.
  - apply Forall_forall. intros d Hd. apply repeat_spec in Hd. subst d.
    now apply Rinv_0_lt_compat.
  - exact Hnz.
Qed.

(** With [scale] and [norm] both set and [analysis] unset, the result is
    the scaled draw with its rows normalized and padded with zeros up to
    length [N]. Over the reals that is the draw itself with its rows
    normalized: the division by [sqrt (T J)] cancels. On float64 arrays
    the two can differ in the last digit ([norm_row_f64_scaling]). *)
Theorem randn_fb_normalized (s : rng) (N J T : nat) (a : nat) :
  (0 < a)%nat -> (N mod a = 0)%nat -> (T <= N)%nat ->
  length (fst (randn s J T)) = J ->
  rectangular T (fst (randn s J T)) ->
  Forall (fun row => norm2 row <> 0) (fst (randn s J T)) ->
  randn_fb s N J (Some T) true true false a
  = (Done (pad_right (fst (norm_row (fst (randn s J T)))) (N - T)),
     snd (randn s J T)).
Proof.
  intros Ha Hdiv HT Hlen Hrect Hnz.
  destruct (divisor_checks N a Ha Hdiv) as [H0 H1].
  unfold randn_fb. rewrite H0, H1.
  destruct (randn s J T) as [w s1]. cbn [fst snd] in *.
  rewrite (norm_row_scaled_draw w T J Hlen Hrect Hnz).
  destruct (N <? T)%nat eqn:Hlt; [apply Nat.ltb_lt in Hlt; lia |].
  reflexivity.
Qed.

Lemma dot_app (u v u' v' : vec) :
  length u = length u' ->
  dot (u ++ v) (u' ++ v') = dot u u' + dot v v'.
Proof.
  revert u'. induction u as [|a u IH]; intros [|b u'] Hlen; simpl in *;
    try discriminate; [ring |].
  rewrite IH by lia. ring.
Qed.

Lemma norm2_pad (row : vec) (k : nat) : norm2 (row ++ repeat 0 k) = norm2 row.
Proof.
  unfold norm2. f_equal. rewrite dot_app by reflexivity.
  assert (Hz : dot (repeat 0 k) (repeat 0 k) = 0).
  { induction k; simpl; [reflexivity | rewrite IHk; ring]. }
  rewrite Hz. ring.
Qed.

(** With all three flags set, a step that divides [N] and [T <= N]: when
    the draw has [J] nonzero rows of length [T], [randn_fb] returns an
    analysis matrix with [J * (N / a)] rows of length [N]. Over the
    reals each row has Euclidean norm 1; on float64 arrays a normalized
    row can have norm [0.9999999999999999] ([norm_row_f64_scaling]). *)
Theorem randn_fb_unit_rows (s : rng) (N J T : nat) (a : nat) :
  (0 < a)%nat -> (N mod a = 0)%nat -> (T <= N)%nat -> (0 < J)%nat ->
  length (fst (randn s J T)) = J ->
  rectangular T (fst (randn s J T)) ->
  Forall (fun row => norm2 row <> 0) (fst (randn s J T)) ->
  exists M,
    randn_fb s N J (Some T) true true true a = (Done M, snd (randn s J T)) /\
    length M = (J * (N / a))%nat /\
    rectangular N M /\
    Forall (fun row => norm2 row = 1) M.
Proof.
  intros Ha Hdiv HT HJ Hlen Hrect Hnz.
  destruct (divisor_checks N a Ha Hdiv) as [H0 H1].
  unfold randn_fb. rewrite H0, H1.
  destruct (randn s J T) as [w s1]. cbn [fst snd] in *.
  rewrite (norm_row_scaled_draw w T J Hlen Hrect Hnz).
  destruct (N <? T)%nat eqn:Hlt; [apply Nat.ltb_lt in Hlt; lia |].
  set (w_pad := pad_right (fst (norm_row w)) (N - T)).
  assert (Hpad_rect : rectangular N w_pad).
  { unfold w_pad, pad_right, rectangular. apply Forall_forall.
    intros row Hrow. apply in_map_iff in Hrow.
    destruct Hrow as [r [<- Hr]].
    pose proof (norm_row_rectangular w T Hrect) as Hr'.
    unfold rectangular in Hr'. rewrite Forall_forall in Hr'.
    rewrite length_app, repeat_length, (Hr' r Hr). lia. }
  assert (Hpad_unit : Forall (fun row => norm2 row = 1) w_pad).
  { unfold w_pad, pad_right. apply Forall_forall.
    intros row Hrow. apply in_map_iff in Hrow.
    destruct Hrow as [r [<- Hr]]. rewrite norm2_pad.
    pose proof (normalized_rows_unit w Hnz) as Hu.
    rewrite Forall_forall in Hu. now apply Hu. }
  assert (Hpad_len : length w_pad = J).
  { unfold w_pad, pad_right. rewrite length_map.
    destruct (norm_row_shape w) as [Hs _].
    transitivity (length w); [exact Hs | exact Hlen]. }
  assert (Hne : w_pad <> []) by (intros Heq; rewrite Heq in Hpad_len; simpl in *; lia).
  assert (Hrun : fb_ana w_pad a
                 = Done (concat (map (fun wj => stride a (transpose (circulant wj)))
                                     w_pad))).
  { unfold fb_ana. rewrite (ncols_rectangular w_pad N Hpad_rect Hne).
    now rewrite H0, H1. }
  eexists. split; [now rewrite Hrun |].
  pose proof (fb_blocks_length w_pad a N Hpad_rect Ha Hdiv) as Hblocks.
  split; [| split].
  - rewrite (concat_const_length _ _ Hblocks), length_map.
    f_equal. exact Hpad_len.
  - apply Forall_forall. intros row Hrow.
    destruct (fb_ana_row_In _ _ _ row Hrun Hrow) as [wj [i [Hwj ->]]].
    rewrite rotr_length. unfold rectangular in Hpad_rect.
    rewrite Forall_forall in Hpad_rect. now apply Hpad_rect.
  - apply Forall_forall. intros row Hrow.
    destruct (fb_ana_row_In _ _ _ row Hrun Hrow) as [wj [i [Hwj ->]]].
    rewrite norm2_rotr. rewrite Forall_forall in Hpad_unit.
    now apply Hpad_unit.
Qed.

End RandnFb.

Lemma randn_fb_norm_without_scale_witness :
  @randn_fb ones_rand 0%nat 4 2 None false true true 2
  = (Failed (Builtin UnboundLocalError), 0%nat).
Proof.
  apply (@randn_fb_norm_without_scale ones_rand 0%nat 4 2 None true 2).
  - lia.
  - reflexivity.
Defined.

Lemma randn_fb_scale_discarded_witness :
  @randn_fb ones_rand 0%nat 4 2 None true false true 2
  = @randn_fb ones_rand (snd (@randn ones_rand 0%nat 2%nat 4%nat))
      4 2 None false false true 2.
Proof.
  apply (@randn_fb_scale_discarded ones_rand 0%nat 4 2 None true 2).
  - lia.
  - reflexivity.
Defined.

Lemma ones_draw_nonzero :
  Forall (fun row => norm2 row <> 0) (fst (@randn ones_rand 0%nat 1%nat 2%nat)).
Proof.
  repeat (apply Forall_cons; [apply norm2_nonzero; simpl; lra |]).
  apply Forall_nil.
Qed.

Lemma ones_draw_rectangular :
  rectangular 2 (fst (@randn ones_rand 0%nat 1%nat 2%nat)).
Proof. repeat (apply Forall_cons; [reflexivity |]). apply Forall_nil. Qed.

Lemma randn_fb_normalized_witness :
  @randn_fb ones_rand 0%nat 4 1 (Some 2%nat) true true false 2
  = (Done (pad_right (fst (norm_row (fst (@randn ones_rand 0%nat 1%nat 2%nat))))
                     (4 - 2)),
     snd (@randn ones_rand 0%nat 1%nat 2%nat)).
Proof.
  apply (@randn_fb_normalized ones_rand 0%nat 4 1 2 2).
  - lia.
  - reflexivity.
  - lia.
  - reflexivity.
  - exact ones_draw_rectangular.
  - exact ones_draw_nonzero.
Defined.

Lemma randn_fb_unit_rows_witness :
  exists M,
    @randn_fb ones_rand 0%nat 4 1 (Some 2%nat) true true true 2
    = (Done M, snd (@randn ones_rand 0%nat 1%nat 2%nat)) /\
    length M = (1 * (4 / 2))%nat /\
    rectangular 4 M /\
    Forall (fun row => norm2 row = 1) M.
Proof.
  apply (@randn_fb_unit_rows ones_rand 0%nat 4 1 2 2).
  - lia.
  - reflexivity.
  - lia.
  - lia.
  - reflexivity.
  - exact ones_draw_rectangular.
  - exact ones_draw_nonzero.
Defined.

(** ** alpha_S: range of the conic value *)

Section AlphaSRange.

Context {lib : NumLib}.

(** [alpha_S] raises [ValueError] on a matrix without rows. On a matrix
    of unit rows, with a solver that answers each of its problems with
    the optimal value, it returns a value between -1 and 0. *)
Theorem alpha_S_range (F : matrix) (n : nat) :
  (0 < n)%nat -> rectangular n F -> F <> [] ->
  Forall (fun row => norm2 row = 1) F ->
  (forall Fi, In Fi F ->
     cp_optimal_value (alpha_S_problem F Fi)
                      (cp_solve (alpha_S_problem F Fi))) ->
  alpha_S [] = Raise ValueError /\
  exists v, alpha_S F = Ret v /\ -1 <= v <= 0.
Proof.
  intros Hn Hrect Hne Hunit Hsolver. split; [reflexivity |].
  unfold alpha_S.
  destruct (np_min_nonempty
              (map (fun Fi => cp_solve (alpha_S_problem F Fi)) F))
    as [v Hv].
  { destruct F; [contradiction | discriminate]. }
  exists v. split; [exact Hv |].
  apply np_min_minimum in Hv. destruct Hv as [Hin _].
  apply in_map_iff in Hin. destruct Hin as [Fi [Hval HFi]].
  rewrite <- Hval at 1 2.
  apply (conic_value_bounds F Fi n); auto.
  rewrite Forall_forall in Hunit.
  rewrite <- norm2_sqr, (Hunit Fi HFi). ring.
Qed.

End AlphaSRange.

Lemma tetr_unit_rows : Forall (fun row => norm2 row = 1) tetr_unit.
Proof.
  replace tetr_unit with (fst (norm_row tetr)) by (now rewrite norm_row_tetr).
  apply normalized_rows_unit.
  repeat (apply Forall_cons; [apply norm2_nonzero; simpl; lra |]).
  apply Forall_nil.
Qed.

Lemma alpha_S_range_witness :
  @alpha_S tetr_lib [] = Raise ValueError /\
  exists v, @alpha_S tetr_lib tetr_unit = Ret v /\ -1 <= v <= 0.
Proof.
  apply (@alpha_S_range tetr_lib tetr_unit 3).
  - lia.
  - exact rectangular_tetr_unit.
  - discriminate.
  - exact tetr_unit_rows.
  - intros Fi HFi. now apply tetr_optimal.
Defined.

(** ** is_omnidir: the linear program that is posed *)

(** The equality constraints that [is_omnidir] hands to [linprog] hold
    for a weight vector [c] exactly when the combination of the rows of
    [W] with weights [c] vanishes in every coordinate and the weights sum
    to 1; the objective, the sum of the weights, is therefore 1 at every
    point that satisfies them. *)
Theorem lp_encoding (W : matrix) (c : vec) :
  (matvec (lp_matrix W) c = lp_rhs W <->
   (forall k, (k < ncols W)%nat -> dot (column W k) c = 0) /\
   dot (repeat 1 (nrows W)) c = 1) /\
  (matvec (lp_matrix W) c = lp_rhs W -> dot (repeat 1 (nrows W)) c = 1).
Proof.
  assert (Hiff : matvec (lp_matrix W) c = lp_rhs W <->
                 (forall k, (k < ncols W)%nat -> dot (column W k) c = 0) /\
                 dot (repeat 1 (nrows W)) c = 1).
  { unfold lp_matrix, lp_rhs, matvec, transpose.
    rewrite map_app, map_map. cbn [map].
    assert (Hzeros : forall n s, repeat 0 n = map (fun _ => 0) (seq s n)).
    { induction n as [|n IH]; intros s; simpl;
        [reflexivity | now rewrite <- IH]. }
    rewrite (Hzeros (ncols W) 0%nat). split.
    - intros H. apply app_inj_tail in H. destruct H as [Hrows Hsum].
      split; [| exact Hsum].
      intros k Hk.
      apply (proj1 map_ext_in_iff Hrows k). apply in_seq. lia.
    - intros [Hrows Hsum]. rewrite Hsum. f_equal.
      apply map_ext_in. intros k Hk. apply in_seq in Hk. apply Hrows. lia. }
  split; [exact Hiff |]. intros H. now apply Hiff in H.
Qed.
